(** * Hockey session signup and team split: registry, viewer and balancing

    A shallow embedding of the backend ([server.ts]), of the shared types
    ([types.ts]) and of the viewer logic ([App.tsx]): the SQLite table
    [current_game] is a list of rows in rowid order, the set of web-socket
    clients is a list of inboxes, and every request handler is a function
    from the store to the new store and the response. *)

From Stdlib Require Import ZArith QArith List String Bool Lia Arith Permutation.
Import ListNotations.

Local Open Scope string_scope.
Local Open Scope list_scope.
Local Open Scope Z_scope.

(** ** types.ts *)

Inductive Position := forward | defense | goalie.

(** [team: 'red' | 'blue' | null] is [option Team]; [None] is [null]. *)
Inductive Team := red | blue.

Record GamePlayer := {
  id : Z;
  name : string;
  position : Position;
  team : option Team
}.

Inductive WebSocketMessage :=
| SIGNUP_UPDATE (data : GamePlayer)
| SIGNUP_REMOVED (removed : Z)
| TEAMS_UPDATED
| GAME_RESET.

Definition Position_eqb (a b : Position) : bool :=
  match a, b with
  | forward, forward | defense, defense | goalie, goalie => true
  | _, _ => false
  end.

Definition Team_eqb (a b : Team) : bool :=
  match a, b with
  | red, red | blue, blue => true
  | _, _ => false
  end.

Definition team_is (t : option Team) (p : GamePlayer) : bool :=
  match team p, t with
  | Some a, Some b => Team_eqb a b
  | None, None => true
  | _, _ => false
  end.

Definition set_team (t : option Team) (p : GamePlayer) : GamePlayer :=
  {| id := id p; name := name p; position := position p; team := t |}.

(** ** server.ts *)

Module Server.

(** The [readyState] of a web-socket connection. *)
Inductive ReadyState := CONNECTING | OPEN | CLOSING | CLOSED.

(** A connected client, with the messages sent to it so far, oldest first. *)
Record Client := {
  readyState : ReadyState;
  received : list WebSocketMessage
}.

(** The [current_game] table in rowid order, the counter SQLite keeps for an
    AUTOINCREMENT key, and [wss.clients]. *)
Record Store := {
  current_game : list GamePlayer;
  sqlite_sequence : Z;
  clients : list Client
}.

(** An item of the [teams] array of a split request. *)
Record TeamItem := {
  item_id : Z;
  item_team : option Team
}.

Inductive Body :=
| signup_body (signup : GamePlayer)
| error_body (error : string)
| success_body.

Record Response := {
  status : Z;
  body : Body
}.

(** [res.json(x)] answers with status 200. *)
Definition json (b : Body) : Response := {| status := 200; body := b |}.

(** What [broadcast] does to one client: [client.send(message)] when the
    connection is open, nothing otherwise. *)
Definition send (message : WebSocketMessage) (client : Client) : Client :=
  match readyState client with
  | OPEN => {| readyState := OPEN; received := received client ++ [message] |}
  | _ => client
  end.

Definition broadcast (data : WebSocketMessage) (s : Store) : Store :=
  {| current_game := current_game s;
     sqlite_sequence := sqlite_sequence s;
     clients := map (send data) (clients s) |}.

(** The rowid an AUTOINCREMENT insert picks: one more than the largest rowid
    the table has ever held. *)
Definition lastInsertRowid (s : Store) : Z :=
  fold_right Z.max (sqlite_sequence s) (map id (current_game s)) + 1.

(** [INSERT INTO current_game (name, position) VALUES (?, ?)] *)
Definition insert (signup : GamePlayer) (s : Store) : Store :=
  {| current_game := current_game s ++ [signup];
     sqlite_sequence := id signup;
     clients := clients s |}.

(** [POST /api/current-game/signup] *)
Definition signup (name0 : string) (position0 : Position) (s : Store)
  : Store * Response :=
  match find (fun r => String.eqb (name r) name0) (current_game s) with
  | Some _ =>
      (s, {| status := 400; body := error_body "Hráč je už nahlásený" |})
  | None =>
      let signup0 := {| id := lastInsertRowid s; name := name0;
                        position := position0; team := None |} in
      (broadcast (SIGNUP_UPDATE signup0) (insert signup0 s),
       json (signup_body signup0))
  end.

(** [DELETE FROM current_game WHERE id = ?] *)
Definition delete (id0 : Z) (s : Store) : Store :=
  {| current_game := filter (fun r => negb (id r =? id0)) (current_game s);
     sqlite_sequence := sqlite_sequence s;
     clients := clients s |}.

(** [POST /api/current-game/remove] *)
Definition remove (id0 : Z) (s : Store) : Store * Response :=
  (broadcast (SIGNUP_REMOVED id0) (delete id0 s), json success_body).

(** [UPDATE current_game SET team = ? WHERE id = ?] on the rows. *)
Definition update (rows : list GamePlayer) (item : TeamItem)
  : list GamePlayer :=
  map (fun r => if id r =? item_id item then set_team (item_team item) r
                else r) rows.

(** The transaction of the split route: one update per item, in order. *)
Definition transaction (teamsList : list TeamItem) (s : Store) : Store :=
  {| current_game := fold_left update teamsList (current_game s);
     sqlite_sequence := sqlite_sequence s;
     clients := clients s |}.

(** [POST /api/current-game/split] *)
Definition split (teams : list TeamItem) (s : Store) : Store * Response :=
  (broadcast TEAMS_UPDATED (transaction teams s), json success_body).

(** [POST /api/current-game/reset] *)
Definition reset (s : Store) : Store * Response :=
  (broadcast GAME_RESET
     {| current_game := [];
        sqlite_sequence := sqlite_sequence s;
        clients := clients s |},
   json success_body).

(** [GET /api/current-game] *)
Definition get_current_game (s : Store) : list GamePlayer := current_game s.

End Server.

(** ** The random source and the engine's sort

    [Math.random()] yields a double in the interval from 0 (included) to 1
    (excluded); every double is a rational, and the successive values are a
    stream of rationals.  The double [x - 0.5] has the sign of the exact
    difference, and is a function of it. *)

Definition RandomSource := nat -> Q.

(** A computation that draws from the random source. *)
Definition Rand (A : Type) : Type := RandomSource -> A * RandomSource.

Definition Math_random : Rand Q :=
  fun src => (src 0%nat, fun n => src (S n)).

(** [Array.prototype.sort] is the engine's: a deterministic procedure that
    asks the comparator about pairs of elements and, from the answers alone,
    arrives at the array it returns.  ECMAScript leaves the procedure, and
    the order it gives with a comparator that is not consistent, to the
    engine: the development takes the procedure as a parameter. *)
Inductive Plan (T A : Type) : Type :=
| Ret (a : A)
| Cmp (x y : T) (k : Q -> Plan T A).

Arguments Ret {T A} a.
Arguments Cmp {T A} x y k.

Fixpoint bind {T A B} (p : Plan T A) (f : A -> Plan T B) : Plan T B :=
  match p with
  | Ret a => f a
  | Cmp x y k => Cmp x y (fun v => bind (k v) f)
  end.

(** Running a plan with a comparator that may draw from the random source. *)
Fixpoint run {T A} (comparefn : T -> T -> Rand Q) (p : Plan T A) : Rand A :=
  match p with
  | Ret a => fun src => (a, src)
  | Cmp x y k =>
      fun src => let (v, src') := comparefn x y src in run comparefn (k v) src'
  end.

(** Every array the plan can return satisfies [P]. *)
Fixpoint Leaves {T A} (P : A -> Prop) (p : Plan T A) : Prop :=
  match p with
  | Ret a => P a
  | Cmp _ _ k => forall v, Leaves P (k v)
  end.

(** The plan asks at most [n] questions on every path. *)
Fixpoint Within {T A} (n : nat) (p : Plan T A) : Prop :=
  match p with
  | Ret _ => True
  | Cmp _ _ k =>
      match n with
      | O => False
      | S n' => forall v, Within n' (k v)
      end
  end.

(** A straight insertion sort, one engine among those the development is
    stated for: [x] goes before the first element it compares below. *)
Fixpoint insertion {T} (x : T) (sorted : list T) : Plan T (list T) :=
  match sorted with
  | [] => Ret [x]
  | y :: rest =>
      Cmp x y (fun v =>
        match v ?= 0 with
        | Lt => Ret (x :: y :: rest)
        | _ => bind (insertion x rest) (fun r => Ret (y :: r))
        end)%Q
  end.

Fixpoint insertion_sort {T} (array : list T) : Plan T (list T) :=
  match array with
  | [] => Ret []
  | x :: rest => bind (insertion_sort rest) (insertion x)
  end.

(** ** App.tsx *)

Module App.
Section Engine.

(** The sort of the engine the viewer runs in. *)
Variable sort : forall T : Type, list T -> Plan T (list T).

(** [fetchData], for the session part: the viewer takes the snapshot the
    registry serves. *)
Definition fetchData (s : Server.Store) : list GamePlayer :=
  Server.get_current_game s.

(** [socket.onmessage], as the update of [gamePlayers]. *)
Definition onmessage (s : Server.Store) (message : WebSocketMessage)
    (prev : list GamePlayer) : list GamePlayer :=
  match message with
  | SIGNUP_UPDATE data =>
      match find (fun p => id p =? id data) prev with
      | Some _ => prev
      | None => prev ++ [data]
      end
  | SIGNUP_REMOVED id0 => filter (fun p => negb (id p =? id0)) prev
  | TEAMS_UPDATED | GAME_RESET => fetchData s
  end.

(** [res.ok] *)
Definition ok (res : Server.Response) : bool :=
  (200 <=? Server.status res) && (Server.status res <=? 299).

(** [signUp]: the new store and the alerts shown. *)
Definition signUp (gamePlayers : list GamePlayer) (player_name : string)
    (player_position : Position) (s : Server.Store)
  : Server.Store * list string :=
  if (22 <=? List.length gamePlayers)%nat then
    (s, ["Maximálny počet hráčov (22) bol dosiahnutý."])
  else
    let (s', res) := Server.signup player_name player_position s in
    if ok res then (s', [])
    else
      match Server.body res with
      | Server.error_body error => (s', [error])
      | _ => (s', ["undefined"])
      end.

(** [removeSignUp] *)
Definition removeSignUp (id0 : Z) (s : Server.Store) : Server.Store :=
  fst (Server.remove id0 s).

(** [resetGame], once confirmed. *)
Definition resetGame (s : Server.Store) : Server.Store :=
  fst (Server.reset s).

Definition nextTeam (t : option Team) : option Team :=
  match t with
  | Some red => Some blue
  | Some blue => None
  | None => Some red
  end.

(** [toggleTeam] *)
Definition toggleTeam (player : GamePlayer) (s : Server.Store)
  : Server.Store :=
  fst (Server.split
         [{| Server.item_id := id player;
             Server.item_team := nextTeam (team player) |}] s).


(** [() => Math.random() - 0.5] *)
Definition random_comparator {T} (_ _ : T) : Rand Q :=
  fun src => let (r, src') := Math_random src in ((r - (1 # 2))%Q, src').

(** [shuffle]: the copy of the array, sorted with the random comparator. *)
Definition shuffle {T} (array : list T) : Rand (list T) :=
  run random_comparator (sort T array).

(** [array.slice(from, to)] *)
Definition slice {T} (from to : nat) (array : list T) : list T :=
  firstn (to - from) (skipn from array).

(** [teamsUpdate.find(u => u.id === id0)!.team = t]: the first item with
    that id is changed; [None] is the TypeError when there is none. *)
Fixpoint find_set (teamsUpdate : list Server.TeamItem) (id0 : Z) (t : Team)
  : option (list Server.TeamItem) :=
  match teamsUpdate with
  | [] => None
  | u :: rest =>
      if Server.item_id u =? id0 then
        Some ({| Server.item_id := Server.item_id u;
                 Server.item_team := Some t |} :: rest)
      else
        match find_set rest id0 t with
        | Some rest' => Some (u :: rest')
        | None => None
        end
  end.

(** [players.forEach(p => teamsUpdate.find(u => u.id === p.id)!.team = t)] *)
Fixpoint forEach_set (players : list GamePlayer) (t : Team)
    (teamsUpdate : list Server.TeamItem) : option (list Server.TeamItem) :=
  match players with
  | [] => Some teamsUpdate
  | p :: rest =>
      match find_set teamsUpdate (id p) t with
      | Some teamsUpdate' => forEach_set rest t teamsUpdate'
      | None => None
      end
  end.

(** [if (sGoalies.length >= n + 1) teamsUpdate.find(... sGoalies[n].id)!.team = t] *)
Definition goalie_set (sGoalies : list GamePlayer) (n : nat) (t : Team)
    (teamsUpdate : list Server.TeamItem) : option (list Server.TeamItem) :=
  if (n + 1 <=? List.length sGoalies)%nat then
    match nth_error sGoalies n with
    | Some g => find_set teamsUpdate (id g) t
    | None => None
    end
  else Some teamsUpdate.

Definition is_position (pos : Position) (p : GamePlayer) : bool :=
  Position_eqb (position p) pos.

(** The three shuffled pools of [splitTeams], in the order it draws them. *)
Definition pools (gamePlayers : list GamePlayer) (src : RandomSource)
  : list GamePlayer * list GamePlayer * list GamePlayer :=
  let goalies := filter (is_position goalie) gamePlayers in
  let defenders := filter (is_position defense) gamePlayers in
  let forwards := filter (is_position forward) gamePlayers in
  let (sGoalies, src1) := shuffle goalies src in
  let (sDefenders, src2) := shuffle defenders src1 in
  let (sForwards, _) := shuffle forwards src2 in
  (sGoalies, sDefenders, sForwards).

(** The [teamsUpdate] array [splitTeams] builds from the shuffled pools. *)
Definition teamsUpdate (gamePlayers sGoalies sDefenders sForwards
                          : list GamePlayer)
  : option (list Server.TeamItem) :=
  let u0 := map (fun p => {| Server.item_id := id p;
                             Server.item_team := None |}) gamePlayers in
  match goalie_set sGoalies 0 red u0 with None => None | Some u1 =>
  match goalie_set sGoalies 1 blue u1 with None => None | Some u2 =>
  let redDefenders := slice 0 4 sDefenders in
  let blueDefenders := slice 4 8 sDefenders in
  match forEach_set redDefenders red u2 with None => None | Some u3 =>
  match forEach_set blueDefenders blue u3 with None => None | Some u4 =>
  let redForwards := slice 0 6 sForwards in
  let blueForwards := slice 6 12 sForwards in
  match forEach_set redForwards red u4 with None => None | Some u5 =>
  forEach_set blueForwards blue u5
  end end end end end.

Inductive SplitResult :=
| insufficient (alert : string)
| TypeError
| posted (s' : Server.Store) (alerts : list string).

(** [splitTeams], on the [gamePlayers] of the render it was called from.
    The delay before the draw and the [isShuffling] flag change nothing of
    the outcome and are left out. *)
Definition splitTeams (gamePlayers : list GamePlayer) (src : RandomSource)
    (s : Server.Store) : SplitResult :=
  if (List.length gamePlayers <? 2)%nat then
    insufficient "Potrebujete aspoň 2 hráčov na rozlosovanie."
  else
    let '(sGoalies, sDefenders, sForwards) := pools gamePlayers src in
    match teamsUpdate gamePlayers sGoalies sDefenders sForwards with
    | None => TypeError
    | Some teams =>
        let (s', res) := Server.split teams s in
        if ok res then posted s' []
        else posted s' ["Nepodarilo sa rozlosovať tímy."]
    end.

(** The members of team [t] at position [pos], as the team lists are
    rendered: [gamePlayers.filter(p => p.team === t)], then
    [.filter(p => p.position === pos)]. *)
Definition members (t : Team) (pos : Position) (rows : list GamePlayer)
  : list GamePlayer :=
  filter (fun p => is_position pos p && team_is (Some t) p) rows.

End Engine.
End App.

(** ** Counting the outcomes of a shuffle

    At resolution [bits] the random source yields the values [k / 2^bits],
    each as likely as the other and each draw independent of the others: all
    the prefixes of one length are equally likely, and the probability of an
    outcome is the share of the prefixes that lead to it. *)

Definition draws (bits : nat) : list Q :=
  map (fun k => Z.of_nat k # Pos.shiftl_nat 1 bits)%Q (seq 0 (2 ^ bits)).

Fixpoint prefixes (bits n : nat) : list (list Q) :=
  match n with
  | O => [[]]
  | S n' => flat_map (fun r => map (cons r) (prefixes bits n')) (draws bits)
  end.

(** The random source that starts with [prefix]. *)
Definition source_of (prefix : list Q) : RandomSource :=
  fun n => nth n prefix 0%Q.

Definition GamePlayer_eq_dec (p q : GamePlayer) : {p = q} + {p <> q}.
Proof.
  decide equality.
  - decide equality; decide equality.
  - decide equality.
  - apply string_dec.
  - apply Z.eq_dec.
Defined.

Definition same_order (r o : list GamePlayer) : bool :=
  if list_eq_dec GamePlayer_eq_dec r o then true else false.

(** The number of the prefixes of length [n] on which the shuffle of [array]
    returns the ordering [o]. *)
Definition ways (sort : forall T : Type, list T -> Plan T (list T))
    (bits n : nat) (array o : list GamePlayer) : nat :=
  List.length
    (filter (fun prefix =>
               same_order (fst (App.shuffle sort array (source_of prefix))) o)
       (prefixes bits n)).

(** The six orderings of three elements. *)
Definition orderings3 {T} (a b c : T) : list (list T) :=
  [[a; b; c]; [a; c; b]; [b; a; c]; [b; c; a]; [c; a; b]; [c; b; a]].

(** A client after [messages] were sent on its connection: they are in its
    inbox, in order, when the connection is open, and lost otherwise. *)
Definition after_sending (messages : list WebSocketMessage)
    (c : Server.Client) : Server.Client :=
  match Server.readyState c with
  | Server.OPEN =>
      {| Server.readyState := Server.OPEN;
         Server.received := Server.received c ++ messages |}
  | _ => c
  end.

(** ** The assignment a split amounts to *)

(** The quota of a position, for one team. *)
Definition quota (pos : Position) : nat :=
  match pos with
  | goalie => 1
  | defense => 4
  | forward => 6
  end.

Definition pool_of (pos : Position)
    (shuffled : list GamePlayer * list GamePlayer * list GamePlayer)
  : list GamePlayer :=
  let '(sGoalies, sDefenders, sForwards) := shuffled in
  match pos with
  | goalie => sGoalies
  | defense => sDefenders
  | forward => sForwards
  end.

(** The slice of a shuffled pool that goes to team [t]. *)
Definition share (t : Team) (pos : Position) (pool : list GamePlayer)
  : list GamePlayer :=
  match t with
  | red => App.slice 0 (quota pos) pool
  | blue => App.slice (quota pos) (2 * quota pos) pool
  end.

(** Whether one of [players] has the id [x]. *)
Definition has_id (x : Z) (players : list GamePlayer) : bool :=
  existsb (fun p => id p =? x) players.

(** The teams by id once [players] were set to [t]. *)
Definition paint (players : list GamePlayer) (t : Team)
    (f : Z -> option Team) : Z -> option Team :=
  fun x => if has_id x players then Some t else f x.

(** The teams by id at the end of [splitTeams]'s assignments. *)
Definition assignment
    (shuffled : list GamePlayer * list GamePlayer * list GamePlayer)
  : Z -> option Team :=
  paint (share blue forward (pool_of forward shuffled)) blue
    (paint (share red forward (pool_of forward shuffled)) red
       (paint (share blue defense (pool_of defense shuffled)) blue
          (paint (share red defense (pool_of defense shuffled)) red
             (paint (share blue goalie (pool_of goalie shuffled)) blue
                (paint (share red goalie (pool_of goalie shuffled)) red
                   (fun _ => None)))))).

(** The [teamsUpdate] array that gives each of [players] the team [f] has
    for its id. *)
Definition items (f : Z -> option Team) (players : list GamePlayer)
  : list Server.TeamItem :=
  map (fun p => {| Server.item_id := id p; Server.item_team := f (id p) |})
    players.

(** The participants that have a team. *)
Definition assigned (rows : list GamePlayer) : list GamePlayer :=
  filter (fun p => negb (team_is None p)) rows.

(** ** The routes as one interface *)

(** A mutation request, by the route it is posted to. *)
Inductive Request :=
| POST_signup (name0 : string) (position0 : Position)
| POST_remove (id0 : Z)
| POST_split (teams : list Server.TeamItem)
| POST_reset.

Definition handle (r : Request) (s : Server.Store)
  : Server.Store * Server.Response :=
  match r with
  | POST_signup name0 position0 => Server.signup name0 position0 s
  | POST_remove id0 => Server.remove id0 s
  | POST_split teams => Server.split teams s
  | POST_reset => Server.reset s
  end.

(** The registry after it served [requests], one after the other. *)
Definition serve (requests : list Request) (s : Server.Store)
  : Server.Store :=
  fold_left (fun s r => fst (handle r s)) requests s.

(** The store with a single connection, open and with nothing received. *)
Definition probe (s : Server.Store) : Server.Store :=
  {| Server.current_game := Server.current_game s;
     Server.sqlite_sequence := Server.sqlite_sequence s;
     Server.clients :=
       [{| Server.readyState := Server.OPEN; Server.received := [] |}] |}.

(** What serving [r] puts on the wire: what the probe receives. *)
Definition sent (r : Request) (s : Server.Store) : list WebSocketMessage :=
  match Server.clients (fst (handle r (probe s))) with
  | c :: _ => Server.received c
  | [] => []
  end.

(** A viewer's projection after the messages [messages], read with the
    registry at [s]. *)
Definition reduce (s : Server.Store) (messages : list WebSocketMessage)
    (prev : list GamePlayer) : list GamePlayer :=
  fold_left (fun v m => App.onmessage s m v) messages prev.

(** What the connection [k] has received so far; nothing when there is no
    such connection. *)
Definition inbox (k : nat) (s : Server.Store) : list WebSocketMessage :=
  match nth_error (Server.clients s) k with
  | Some c => Server.received c
  | None => []
  end.

(** A click on the [i]-th participant shown by the viewer on the connection
    [k]: [toggleTeam] with the object the viewer holds, then the viewer's
    [onmessage] on what its connection received because of it, and on
    nothing else. *)
Definition onClick_listening (k i : nat)
    (sys : Server.Store * list GamePlayer) : Server.Store * list GamePlayer :=
  let (s, gamePlayers) := sys in
  match nth_error gamePlayers i with
  | Some player =>
      let s' := App.toggleTeam player s in
      (s',
       reduce s' (skipn (List.length (inbox k s)) (inbox k s')) gamePlayers)
  | None => sys
  end.

(** The registry serves [r] and the viewer applies what it is sent. *)
Definition serve_and_view (sys : Server.Store * list GamePlayer) (r : Request)
  : Server.Store * list GamePlayer :=
  let s' := fst (handle r (fst sys)) in
  (s', reduce s' (sent r (fst sys)) (snd sys)).

(** What the registry keeps: ids and names are distinct within the session,
    and no id is above the AUTOINCREMENT counter. *)
Definition well_formed (s : Server.Store) : Prop :=
  NoDup (map id (Server.current_game s))
  /\ NoDup (map name (Server.current_game s))
  /\ forall p, In p (Server.current_game s) -> id p <= Server.sqlite_sequence s.

(** The last item of a split request that names the id [i]. *)
Definition last_item (teams : list Server.TeamItem) (i : Z)
  : option Server.TeamItem :=
  find (fun item => Server.item_id item =? i) (rev teams).

(** ** What App.tsx renders and copies *)

Definition redTeam (gamePlayers : list GamePlayer) : list GamePlayer :=
  filter (team_is (Some red)) gamePlayers.

Definition blueTeam (gamePlayers : list GamePlayer) : list GamePlayer :=
  filter (team_is (Some blue)) gamePlayers.

Definition unassigned (gamePlayers : list GamePlayer) : list GamePlayer :=
  filter (team_is None) gamePlayers.

Definition goalieCount (gamePlayers : list GamePlayer) : nat :=
  List.length (filter (App.is_position goalie) gamePlayers).

(** [gamePlayers.every(p => p.team === null)], which disables the copy
    button. *)
Definition copy_disabled (gamePlayers : list GamePlayer) : bool :=
  forallb (team_is None) gamePlayers.

(** [gamePlayers.some(gp => gp.name === player.name)], which disables the
    signup button of a roster entry. *)
Definition signUp_disabled (gamePlayers : list GamePlayer)
    (player_name : string) : bool :=
  existsb (fun gp => String.eqb (name gp) player_name) gamePlayers.

(** The line feed of the template literals. *)
Definition LF : string := String (Ascii.ascii_of_nat 10) EmptyString.

(** [x || '-'] on strings: the empty string is falsy. *)
Definition or_dash (x : string) : string :=
  match x with
  | EmptyString => "-"
  | _ => x
  end.

(** [team.filter(p => p.position === pos).map(p => p.name).join(', ') || '-'] *)
Definition names_at (pos : Position) (team0 : list GamePlayer) : string :=
  or_dash (String.concat ", " (map name (filter (App.is_position pos) team0))).

(** [formatTeam] of [copyTeams] *)
Definition formatTeam (name0 : string) (team0 : list GamePlayer) : string :=
  ("*" ++ name0 ++ " TÍM*" ++ LF
   ++ "🥅 Brankár: " ++ names_at goalie team0 ++ LF
   ++ "🛡️ Obrana: " ++ names_at defense team0 ++ LF
   ++ "⚔️ Útok: " ++ names_at forward team0)%string.

(** [copyTeams]: the text written to the clipboard. *)
Definition copyTeams (gamePlayers : list GamePlayer) : string :=
  ("🏒 *ROZLOSOVANIE HOKEJOVÝCH TÍMOV*" ++ LF ++ LF
   ++ formatTeam "ČERVENÝ" (redTeam gamePlayers) ++ LF ++ LF
   ++ formatTeam "MODRÝ" (blueTeam gamePlayers) ++ LF ++ LF
   ++ "_Vygenerované cez Rozlosovanie hokej_")%string.

(** ** Sample data *)

Definition player (i : Z) (n : string) (pos : Position) (t : option Team)
  : GamePlayer :=
  {| id := i; name := n; position := pos; team := t |}.

Definition empty_store : Server.Store :=
  {| Server.current_game := [];
     Server.sqlite_sequence := 0;
     Server.clients :=
       [{| Server.readyState := Server.OPEN; Server.received := [] |};
        {| Server.readyState := Server.CLOSED; Server.received := [] |}] |}.

Definition names22 : list string :=
  ["P01"; "P02"; "P03"; "P04"; "P05"; "P06"; "P07"; "P08"; "P09"; "P10"; "P11";
   "P12"; "P13"; "P14"; "P15"; "P16"; "P17"; "P18"; "P19"; "P20"; "P21"; "P22"].

Definition signup_all (names : list string) (s : Server.Store)
  : Server.Store :=
  fold_left (fun s n => fst (Server.signup n forward s)) names s.

(** The registry after 22 signups. *)
Definition session22 : Server.Store := signup_all names22 empty_store.

(** A session of five: two goalies, two defenders, a forward; one carries a
    manual override. *)
Definition session5 : Server.Store :=
  {| Server.current_game :=
       [player 1 "Alice" defense None; player 2 "Bob" goalie (Some blue);
        player 3 "Cyril" forward None; player 4 "Dana" goalie None;
        player 5 "Emil" defense None];
     Server.sqlite_sequence := 5;
     Server.clients :=
       [{| Server.readyState := Server.OPEN; Server.received := [] |}] |}.

(** The registry after the first 21 of them. *)
Definition session21 : Server.Store :=
  signup_all (firstn 21 names22) empty_store.

(** A pool of three defenders. *)
Definition pool3 : list GamePlayer :=
  [player 1 "Alice" defense None; player 5 "Emil" defense None;
   player 7 "Gustav" defense None].

(** A random source that alternates between 0.25 and 0.75. *)
Definition alternating : RandomSource :=
  fun n => if Nat.even n then (1 # 4)%Q else (3 # 4)%Q.

(** A full line-up: 2 goalies, 8 defenders and 12 forwards, named A to V. *)
Definition line_up : list GamePlayer :=
  map (fun i =>
         player (Z.of_nat i) (String (Ascii.ascii_of_nat (64 + i)) EmptyString)
           (if (i <=? 2)%nat then goalie
            else if (i <=? 10)%nat then defense else forward)
           None)
    (seq 1 22).

Definition full_house : Server.Store :=
  {| Server.current_game := line_up;
     Server.sqlite_sequence := 22;
     Server.clients :=
       [{| Server.readyState := Server.OPEN; Server.received := [] |}] |}.

(** The session of five, seen by a viewer whose connection is closed. *)
Definition session5_offline : Server.Store :=
  {| Server.current_game := Server.current_game session5;
     Server.sqlite_sequence := 5;
     Server.clients :=
       [{| Server.readyState := Server.CLOSED; Server.received := [] |}] |}.

(** A split request that names the id 2 twice and an id that is absent. *)
Definition teams_twice : list Server.TeamItem :=
  [{| Server.item_id := 2; Server.item_team := Some red |};
   {| Server.item_id := 9; Server.item_team := Some blue |};
   {| Server.item_id := 2; Server.item_team := None |}].

(** * Properties *)

(** ** The broadcast *)

Lemma send_after_sending (data : WebSocketMessage) (c : Server.Client) :
  Server.send data c = after_sending [data] c.
Proof.
  unfold Server.send, after_sending. destruct (Server.readyState c); reflexivity.
Qed.

Lemma after_sending_app (l1 l2 : list WebSocketMessage) (c : Server.Client) :
  after_sending l2 (after_sending l1 c) = after_sending (l1 ++ l2) c.
Proof.
  unfold after_sending.
  destruct (Server.readyState c) eqn:E; cbn; rewrite ?E; try reflexivity.
  now rewrite <- app_assoc.
Qed.

Lemma broadcast_clients (data : WebSocketMessage) (s : Server.Store) :
  Server.clients (Server.broadcast data s)
  = map (after_sending [data]) (Server.clients s).
Proof.
  cbn. apply map_ext. intro c. apply send_after_sending.
Qed.

Lemma find_name_some (name0 : string) (rows : list GamePlayer) :
  (exists p, In p rows /\ name p = name0) ->
  exists q, find (fun r => String.eqb (name r) name0) rows = Some q.
Proof.
  intros [p [Hin Hname]].
  destruct (find _ rows) as [q|] eqn:E; [now exists q|].
  apply (find_none _ _ E) in Hin. cbn in Hin.
  rewrite Hname, String.eqb_refl in Hin. discriminate.
Qed.

Lemma find_name_none (name0 : string) (rows : list GamePlayer) :
  (forall p, In p rows -> name p <> name0) ->
  find (fun r => String.eqb (name r) name0) rows = None.
Proof.
  intro H. destruct (find _ rows) as [q|] eqn:E; [|reflexivity].
  apply find_some in E. destruct E as [Hin Heq].
  apply String.eqb_eq in Heq. now apply H in Hin.
Qed.

Lemma filter_all {A} (f : A -> bool) (l : list A) :
  (forall x, In x l -> f x = true) -> filter f l = l.
Proof.
  induction l as [|a l IH]; cbn; intro H; [reflexivity|].
  rewrite (H a (or_introl eq_refl)). f_equal. apply IH. intros; apply H; now right.
Qed.

(** ** Signup *)

(** The capacity of 22 is checked by the viewer's [signUp] against the
    viewer's own projection, and nowhere in the registry.  A viewer whose
    projection holds 22 or more participants alerts and sends nothing, so the
    store is unchanged; a viewer whose projection holds fewer sends the
    request, and the registry appends a fresh name (the 22nd signup
    succeeds); the registry's handler by itself appends a fresh name at any
    size; and a signup through a viewer whose projection is as long as the
    session keeps the session at 22 or fewer. *)
Theorem signUp_capacity_gate (gamePlayers : list GamePlayer)
    (player_name : string) (player_position : Position) (s : Server.Store) :
  ((22 <= List.length gamePlayers)%nat ->
     App.signUp gamePlayers player_name player_position s
     = (s, ["Maximálny počet hráčov (22) bol dosiahnutý."]))
  /\ ((List.length gamePlayers < 22)%nat ->
      (forall p, In p (Server.current_game s) -> name p <> player_name) ->
      Server.current_game
        (fst (App.signUp gamePlayers player_name player_position s))
      = Server.current_game s
          ++ [{| id := Server.lastInsertRowid s; name := player_name;
                 position := player_position; team := None |}]
      /\ snd (App.signUp gamePlayers player_name player_position s) = [])
  /\ ((forall p, In p (Server.current_game s) -> name p <> player_name) ->
      List.length
        (Server.current_game
           (fst (Server.signup player_name player_position s)))
      = S (List.length (Server.current_game s))
      /\ Server.status (snd (Server.signup player_name player_position s))
         = 200)
  /\ (List.length gamePlayers = List.length (Server.current_game s) ->
      (List.length (Server.current_game s) <= 22)%nat ->
      (List.length
         (Server.current_game
            (fst (App.signUp gamePlayers player_name player_position s)))
       <= 22)%nat).
Proof.
  assert (Hfresh : (forall p, In p (Server.current_game s) ->
                      name p <> player_name) ->
                   Server.signup player_name player_position s
                   = (Server.broadcast
                        (SIGNUP_UPDATE
                           {| id := Server.lastInsertRowid s;
                              name := player_name;
                              position := player_position; team := None |})
                        (Server.insert
                           {| id := Server.lastInsertRowid s;
                              name := player_name;
                              position := player_position; team := None |} s),
                      Server.json
                        (Server.signup_body
                           {| id := Server.lastInsertRowid s;
                              name := player_name;
                              position := player_position;
                              team := None |}))).
  { intro H. unfold Server.signup. now rewrite (find_name_none _ _ H). }
  split; [|split; [|split]].
  - intro H. unfold App.signUp.
    apply Nat.leb_le in H. now rewrite H.
  - intros Hlt Hnew. unfold App.signUp.
    apply Nat.leb_gt in Hlt. rewrite Hlt, (Hfresh Hnew). cbn. now split.
  - intro H. rewrite (Hfresh H). cbn. rewrite length_app. cbn.
    split; [lia|reflexivity].
  - intros Hsync Hle. unfold App.signUp.
    destruct (22 <=? List.length gamePlayers)%nat eqn:E; [exact Hle|].
    apply Nat.leb_gt in E.
    unfold Server.signup.
    destruct (find _ (Server.current_game s)); cbn; [exact Hle|].
    rewrite length_app. cbn. lia.
Qed.

(** C8: a signup whose name is already in the session, whatever the position
    asked for, is answered with status 400 and the duplicate error; the store
    is the same afterwards, rows and inboxes alike, so nothing was broadcast. *)
Theorem signup_duplicate_rejected (name0 : string) (position0 : Position)
    (s : Server.Store) :
  (exists p, In p (Server.current_game s) /\ name p = name0) ->
  Server.signup name0 position0 s
  = (s, {| Server.status := 400;
           Server.body := Server.error_body "Hráč je už nahlásený" |}).
Proof.
  intro H. unfold Server.signup.
  destruct (find_name_some _ _ H) as [q Hq]. now rewrite Hq.
Qed.

(** ** Removal *)

(** C10: a remove request is always answered with success, and every open
    connection is sent one [SIGNUP_REMOVED] with the id of the request; this
    is so too when no participant has that id, where the rows stay as they
    were. *)
Theorem remove_always_broadcasts (id0 : Z) (s : Server.Store) :
  snd (Server.remove id0 s) = Server.json Server.success_body
  /\ Server.clients (fst (Server.remove id0 s))
     = map (after_sending [SIGNUP_REMOVED id0]) (Server.clients s)
  /\ Server.current_game (fst (Server.remove id0 s))
     = filter (fun r => negb (id r =? id0)) (Server.current_game s)
  /\ ((forall p, In p (Server.current_game s) -> id p <> id0) ->
      Server.current_game (fst (Server.remove id0 s)) = Server.current_game s).
Proof.
  split; [reflexivity|]. split; [|split; [reflexivity|]].
  - unfold Server.remove. cbn [fst]. now rewrite broadcast_clients.
  - intro H. cbn. apply filter_all. intros p Hp.
    apply H in Hp. apply Z.eqb_neq in Hp. now rewrite Hp.
Qed.

(** ** Reset *)

(** C7: a reset is always answered with success and leaves no row; after two
    resets in a row the session is empty after each, and every open
    connection was sent [GAME_RESET] twice, once for each. *)
Theorem reset_twice (s : Server.Store) :
  let s1 := fst (Server.reset s) in
  let s2 := fst (Server.reset s1) in
  Server.current_game s1 = []
  /\ Server.current_game s2 = []
  /\ snd (Server.reset s) = Server.json Server.success_body
  /\ snd (Server.reset s1) = Server.json Server.success_body
  /\ Server.clients s1 = map (after_sending [GAME_RESET]) (Server.clients s)
  /\ Server.clients s2
     = map (after_sending [GAME_RESET; GAME_RESET]) (Server.clients s).
Proof.
  cbn. do 4 (split; [reflexivity|]). split.
  - apply map_ext. intro c. apply send_after_sending.
  - rewrite map_map. apply map_ext. intro c.
    now rewrite !send_after_sending, after_sending_app.
Qed.

(** ** The viewer's projection *)

(** C9: on the viewer's projection, a [SIGNUP_UPDATE] whose participant id
    is already present changes nothing, and a [SIGNUP_REMOVED] whose id is
    not present changes nothing. *)
Theorem onmessage_tolerates (s : Server.Store) (prev : list GamePlayer) :
  (forall data, (exists p, In p prev /\ id p = id data) ->
     App.onmessage s (SIGNUP_UPDATE data) prev = prev)
  /\ (forall id0, (forall p, In p prev -> id p <> id0) ->
        App.onmessage s (SIGNUP_REMOVED id0) prev = prev).
Proof.
  split.
  - intros data [p [Hin Hid]]. cbn.
    destruct (find _ prev) as [q|] eqn:E; [reflexivity|].
    apply (find_none _ _ E) in Hin. cbn in Hin.
    rewrite Hid, Z.eqb_refl in Hin. discriminate.
  - intros id0 H. cbn. apply filter_all. intros p Hp.
    apply H in Hp. apply Z.eqb_neq in Hp. now rewrite Hp.
Qed.

(** ** Manual override *)

Lemma toggleTeam_rows (player : GamePlayer) (s : Server.Store) :
  Server.current_game (App.toggleTeam player s)
  = map (fun r => if id r =? id player
                  then set_team (App.nextTeam (team player)) r else r)
      (Server.current_game s).
Proof. reflexivity. Qed.

(** C6: an override on one participant keeps the number and the order of
    the rows; every row of another id is the same afterwards, in all its
    fields, and every row keeps its id, name and position. *)
Theorem toggleTeam_frame (player : GamePlayer) (s : Server.Store)
    (i : nat) (q : GamePlayer) :
  nth_error (Server.current_game s) i = Some q ->
  List.length (Server.current_game (App.toggleTeam player s))
  = List.length (Server.current_game s)
  /\ (id q <> id player ->
      nth_error (Server.current_game (App.toggleTeam player s)) i = Some q)
  /\ (exists q',
        nth_error (Server.current_game (App.toggleTeam player s)) i = Some q'
        /\ id q' = id q /\ name q' = name q /\ position q' = position q).
Proof.
  intro Hq. rewrite toggleTeam_rows, length_map, nth_error_map, Hq. cbn.
  split; [reflexivity|]. split.
  - intro Hne. apply Z.eqb_neq in Hne. now rewrite Hne.
  - destruct (id q =? id player); eexists; split; try reflexivity; now cbn.
Qed.

Lemma skipn_past {T} (l l' : list T) : skipn (List.length l) (l ++ l') = l'.
Proof. induction l as [|a l IH]; cbn; auto. Qed.

Lemma onClick_listening_step (k i : nat) (s : Server.Store)
    (c : Server.Client) (p : GamePlayer) :
  nth_error (Server.clients s) k = Some c ->
  Server.readyState c = Server.OPEN ->
  nth_error (Server.current_game s) i = Some p ->
  let sys' := onClick_listening k i (s, Server.current_game s) in
  snd sys' = Server.current_game (fst sys')
  /\ nth_error (Server.current_game (fst sys')) i
     = Some (set_team (App.nextTeam (team p)) p)
  /\ exists c',
       nth_error (Server.clients (fst sys')) k = Some c'
       /\ Server.readyState c' = Server.OPEN.
Proof.
  intros Hc Hopen Hp. unfold onClick_listening. rewrite Hp.
  assert (Hc' : nth_error (Server.clients (App.toggleTeam p s)) k
                = Some {| Server.readyState := Server.OPEN;
                          Server.received :=
                            Server.received c ++ [TEAMS_UPDATED] |}).
  { cbn. rewrite nth_error_map, Hc. cbn. unfold Server.send.
    now rewrite Hopen. }
  unfold inbox. rewrite Hc, Hc'. cbn [Server.received].
  rewrite skipn_past. cbn [reduce fold_left App.onmessage fst snd].
  split; [reflexivity|]. split.
  - rewrite toggleTeam_rows, nth_error_map, Hp. cbn. now rewrite Z.eqb_refl.
  - eexists. split; [exact Hc'|reflexivity].
Qed.

(** C5, as the code has it: an override sets the row of the participant to
    the team that follows, on the cycle unassigned, red, blue, unassigned, the
    team of the object the viewer holds for it, whatever team the row has: it
    is one step for the participant when the object shows the row's team.
    So three overrides in a row on a participant that is unassigned, by a
    viewer that shows the session and whose open connection brings it the
    [TEAMS_UPDATED] of each before the next, leave its row red, then blue,
    then unassigned. *)
Theorem toggleTeam_follows_viewer (player q : GamePlayer) (s : Server.Store)
    (i k : nat) (c : Server.Client) :
  nth_error (Server.current_game s) i = Some q ->
  id q = id player ->
  nth_error (Server.current_game (App.toggleTeam player s)) i
  = Some (set_team (App.nextTeam (team player)) q)
  /\ App.nextTeam None = Some red
  /\ App.nextTeam (Some red) = Some blue
  /\ App.nextTeam (Some blue) = None
  /\ (team player = team q ->
      nth_error (Server.current_game (App.toggleTeam player s)) i
      = Some (set_team (App.nextTeam (team q)) q))
  /\ (nth_error (Server.clients s) k = Some c ->
      Server.readyState c = Server.OPEN ->
      team q = None ->
      let sys1 := onClick_listening k i (s, Server.current_game s) in
      let sys2 := onClick_listening k i sys1 in
      let sys3 := onClick_listening k i sys2 in
      nth_error (Server.current_game (fst sys1)) i
      = Some (set_team (Some red) q)
      /\ nth_error (Server.current_game (fst sys2)) i
         = Some (set_team (Some blue) q)
      /\ nth_error (Server.current_game (fst sys3)) i
         = Some (set_team None q)
      /\ snd sys3 = Server.current_game (fst sys3)).
Proof.
  intros Hq Hid.
  assert (HA : nth_error (Server.current_game (App.toggleTeam player s)) i
               = Some (set_team (App.nextTeam (team player)) q)).
  { rewrite toggleTeam_rows, nth_error_map, Hq. cbn.
    apply Z.eqb_eq in Hid. now rewrite Hid. }
  split; [exact HA|]. do 3 (split; [reflexivity|]). split.
  - intro Hteam. now rewrite <- Hteam.
  - intros Hc Hopen Hnone sys1 sys2 sys3.
    destruct (onClick_listening_step k i s c q Hc Hopen Hq)
      as [Hsync1 [H1 [c1 [Hc1 Hopen1]]]].
    fold sys1 in Hsync1, H1, Hc1. rewrite Hnone in H1.
    cbn [App.nextTeam] in H1.
    assert (E1 : sys1 = (fst sys1, Server.current_game (fst sys1))).
    { rewrite <- Hsync1. now destruct sys1. }
    destruct (onClick_listening_step k i (fst sys1) c1 _ Hc1 Hopen1 H1)
      as [Hsync2 [H2 [c2 [Hc2 Hopen2]]]].
    rewrite <- E1 in Hsync2, H2, Hc2. fold sys2 in Hsync2, H2, Hc2.
    cbn in H2.
    assert (E2 : sys2 = (fst sys2, Server.current_game (fst sys2))).
    { rewrite <- Hsync2. now destruct sys2. }
    destruct (onClick_listening_step k i (fst sys2) c2 _ Hc2 Hopen2 H2)
      as [Hsync3 [H3 _]].
    rewrite <- E2 in Hsync3, H3. fold sys3 in Hsync3, H3. cbn in H3.
    split; [exact H1|]. split; [exact H2|]. split; [exact H3|exact Hsync3].
Qed.

(** ** The split *)

Section Split.

Variable sort : forall T : Type, list T -> Plan T (list T).

(** The engine's sort returns a permutation of the array it is given. *)
Hypothesis sort_permutes :
  forall (T : Type) (l : list T), Leaves (Permutation l) (sort T l).

Lemma run_Leaves {T A} (P : A -> Prop) (comparefn : T -> T -> Rand Q)
    (p : Plan T A) :
  Leaves P p -> forall src, P (fst (run comparefn p src)).
Proof.
  induction p as [a|x y k IH]; cbn; intros H src; [exact H|].
  destruct (comparefn x y src) as [v src']. apply IH, H.
Qed.

Lemma shuffle_permutes {T} (array : list T) (src : RandomSource) :
  Permutation array (fst (App.shuffle sort array src)).
Proof.
  unfold App.shuffle. apply (run_Leaves (Permutation array)), sort_permutes.
Qed.

Lemma pools_permute (gamePlayers : list GamePlayer) (src : RandomSource)
    (pos : Position) :
  Permutation (filter (App.is_position pos) gamePlayers)
    (pool_of pos (App.pools sort gamePlayers src)).
Proof.
  unfold App.pools.
  pose proof (shuffle_permutes
                (filter (App.is_position goalie) gamePlayers) src) as HG.
  destruct (App.shuffle sort (filter (App.is_position goalie) gamePlayers)
              src) as [sG src1].
  pose proof (shuffle_permutes
                (filter (App.is_position defense) gamePlayers) src1) as HD.
  destruct (App.shuffle sort (filter (App.is_position defense) gamePlayers)
              src1) as [sD src2].
  pose proof (shuffle_permutes
                (filter (App.is_position forward) gamePlayers) src2) as HF.
  destruct (App.shuffle sort (filter (App.is_position forward) gamePlayers)
              src2) as [sF src3].
  destruct pos; assumption.
Qed.

End Split.

(** *** Ids and slices *)

Lemma has_id_true (x : Z) (players : list GamePlayer) :
  has_id x players = true <-> exists p, In p players /\ id p = x.
Proof.
  unfold has_id. rewrite existsb_exists.
  split; intros [p [Hin H]]; exists p; split; auto; now apply Z.eqb_eq.
Qed.

Lemma has_id_false (x : Z) (players : list GamePlayer) :
  has_id x players = false <-> forall p, In p players -> id p <> x.
Proof.
  split.
  - intros H p Hin Heq.
    assert (has_id x players = true) by (apply has_id_true; eauto).
    congruence.
  - intro H. destruct (has_id x players) eqn:E; [|reflexivity].
    apply has_id_true in E. destruct E as [p [Hin Heq]]. now apply H in Hin.
Qed.

Lemma id_injective (l : list GamePlayer) (p q : GamePlayer) :
  NoDup (map id l) -> In p l -> In q l -> id p = id q -> p = q.
Proof.
  induction l as [|a l IH]; cbn; [tauto|].
  intros Hnd Hp Hq Heq. inversion Hnd as [|? ? Hnotin Hnd']; subst.
  destruct Hp as [->|Hp], Hq as [->|Hq]; auto.
  - exfalso. apply Hnotin. rewrite Heq. now apply in_map.
  - exfalso. apply Hnotin. rewrite <- Heq. now apply in_map.
Qed.

Lemma slice_incl {T} (from to : nat) (l : list T) (x : T) :
  In x (App.slice from to l) -> In x l.
Proof.
  unfold App.slice. intro H.
  rewrite <- (firstn_skipn from l). apply in_or_app. right.
  rewrite <- (firstn_skipn (to - from) (skipn from l)).
  apply in_or_app. now left.
Qed.

Lemma slice_NoDup {T} (from to : nat) (l : list T) :
  NoDup l -> NoDup (App.slice from to l).
Proof.
  unfold App.slice. intro H.
  rewrite <- (firstn_skipn from l) in H. apply NoDup_app_remove_l in H.
  rewrite <- (firstn_skipn (to - from) (skipn from l)) in H.
  now apply NoDup_app_remove_r in H.
Qed.

Lemma share_incl (t : Team) (pos : Position) (pool : list GamePlayer)
    (x : GamePlayer) :
  In x (share t pos pool) -> In x pool.
Proof. destruct t; apply slice_incl. Qed.

Lemma share_NoDup (t : Team) (pos : Position) (pool : list GamePlayer) :
  NoDup pool -> NoDup (share t pos pool).
Proof. destruct t; apply slice_NoDup. Qed.

Lemma share_red_firstn (pos : Position) (pool : list GamePlayer) :
  share red pos pool = firstn (quota pos) pool.
Proof. unfold share, App.slice. now rewrite Nat.sub_0_r. Qed.

Lemma share_blue_firstn (pos : Position) (pool : list GamePlayer) :
  share blue pos pool = firstn (quota pos) (skipn (quota pos) pool).
Proof.
  unfold share, App.slice. f_equal. lia.
Qed.

(** A shuffled pool is the red share, then the blue share, then the rest. *)
Lemma pool_split (pos : Position) (pool : list GamePlayer) :
  pool = share red pos pool ++ share blue pos pool
           ++ skipn (2 * quota pos) pool.
Proof.
  rewrite share_red_firstn, share_blue_firstn.
  replace (2 * quota pos)%nat with (quota pos + quota pos)%nat by lia.
  rewrite <- skipn_skipn, firstn_skipn, firstn_skipn. reflexivity.
Qed.

Lemma NoDup_app_disjoint {T} (l1 l2 : list T) (x : T) :
  NoDup (l1 ++ l2) -> In x l1 -> In x l2 -> False.
Proof.
  induction l1 as [|a l1 IH]; cbn; [tauto|].
  intros Hnd [->|H1] H2; inversion Hnd as [|? ? Hnotin Hnd']; subst.
  - apply Hnotin, in_or_app. now right.
  - now apply IH.
Qed.

Lemma share_disjoint (pos : Position) (pool : list GamePlayer)
    (x : GamePlayer) :
  NoDup pool -> In x (share red pos pool) -> In x (share blue pos pool) ->
  False.
Proof.
  intros Hnd Hr Hb. rewrite (pool_split pos pool) in Hnd.
  apply (NoDup_app_disjoint _ _ x Hnd Hr). apply in_or_app. now left.
Qed.


Lemma share_length (pos : Position) (pool : list GamePlayer) :
  List.length (share red pos pool)
  = Nat.min (quota pos) (List.length pool)
  /\ List.length (share blue pos pool)
     = Nat.min (quota pos) (List.length pool - quota pos).
Proof.
  rewrite share_red_firstn, share_blue_firstn.
  now rewrite !length_firstn, length_skipn.
Qed.

(** *** The array of updates *)

Lemma items_ext (f g : Z -> option Team) (l : list GamePlayer) :
  (forall p, In p l -> f (id p) = g (id p)) -> items f l = items g l.
Proof.
  intro H. unfold items. apply map_ext_in. intros p Hp. now rewrite (H p Hp).
Qed.

Lemma find_set_items (f : Z -> option Team) (l : list GamePlayer)
    (p : GamePlayer) (t : Team) :
  NoDup (map id l) -> In (id p) (map id l) ->
  App.find_set (items f l) (id p) t = Some (items (paint [p] t f) l).
Proof.
  induction l as [|a l IH]; cbn; [tauto|].
  intros Hnd Hin. inversion Hnd as [|? ? Hnotin Hnd']; subst.
  unfold paint at 1. cbn. rewrite (Z.eqb_sym (id p) (id a)).
  destruct (id a =? id p) eqn:E.
  - apply Z.eqb_eq in E. cbn. do 2 f_equal.
    apply items_ext. intros q Hq. unfold paint. cbn.
    replace (id p =? id q) with false; [reflexivity|].
    symmetry. apply Z.eqb_neq. intro Heq. apply Hnotin.
    rewrite E, Heq. now apply in_map.
  - apply Z.eqb_neq in E. destruct Hin as [Heq|Hin]; [congruence|].
    fold (items f l). rewrite (IH Hnd' Hin). reflexivity.
Qed.

Lemma forEach_set_items (players : list GamePlayer) (t : Team)
    (l : list GamePlayer) :
  NoDup (map id l) ->
  (forall p, In p players -> In (id p) (map id l)) ->
  forall f,
    App.forEach_set players t (items f l) = Some (items (paint players t f) l).
Proof.
  intros Hnd. induction players as [|p ps IH]; intros Hin f; [reflexivity|].
  cbn [App.forEach_set].
  rewrite (find_set_items f l p t Hnd (Hin p (or_introl eq_refl))).
  rewrite IH by (intros q Hq; apply Hin; now right).
  f_equal. apply items_ext. intros q _. unfold paint, has_id. cbn [existsb].
  destruct (existsb _ ps), (id p =? id q); reflexivity.
Qed.

Lemma goalie_set_red (sGoalies : list GamePlayer)
    (u : list Server.TeamItem) :
  App.goalie_set sGoalies 0 red u
  = App.forEach_set (share red goalie sGoalies) red u.
Proof.
  destruct sGoalies as [|g rest]; cbn; [reflexivity|].
  unfold App.goalie_set. cbn. now destruct (App.find_set u (id g) red).
Qed.

Lemma goalie_set_blue (sGoalies : list GamePlayer)
    (u : list Server.TeamItem) :
  App.goalie_set sGoalies 1 blue u
  = App.forEach_set (share blue goalie sGoalies) blue u.
Proof.
  destruct sGoalies as [|g0 [|g1 rest]]; cbn; try reflexivity.
  unfold App.goalie_set. cbn. now destruct (App.find_set u (id g1) blue).
Qed.

(** [splitTeams] never hits the TypeError: the array it builds has one item
    for each participant, in the participants' order, with the team the
    assignment gives. *)
Lemma teamsUpdate_items (gamePlayers sG sD sF : list GamePlayer) :
  NoDup (map id gamePlayers) ->
  (forall pos p, In p (pool_of pos (sG, sD, sF)) ->
                 In (id p) (map id gamePlayers)) ->
  App.teamsUpdate gamePlayers sG sD sF
  = Some (items (assignment (sG, sD, sF)) gamePlayers).
Proof.
  intros Hnd Hin. unfold App.teamsUpdate.
  change (map (fun p => {| Server.item_id := id p; Server.item_team := None |})
            gamePlayers)
    with (items (fun _ => None) gamePlayers).
  assert (Hs : forall t pos p, In p (share t pos (pool_of pos (sG, sD, sF))) ->
                               In (id p) (map id gamePlayers)).
  { intros t pos p Hp. apply (Hin pos). now apply share_incl in Hp. }
  rewrite goalie_set_red.
  rewrite (forEach_set_items _ red _ Hnd (Hs red goalie)).
  rewrite goalie_set_blue.
  rewrite (forEach_set_items _ blue _ Hnd (Hs blue goalie)).
  change (App.slice 0 4 sD) with (share red defense sD).
  rewrite (forEach_set_items _ red _ Hnd (Hs red defense)).
  change (App.slice 4 8 sD) with (share blue defense sD).
  rewrite (forEach_set_items _ blue _ Hnd (Hs blue defense)).
  change (App.slice 0 6 sF) with (share red forward sF).
  rewrite (forEach_set_items _ red _ Hnd (Hs red forward)).
  change (App.slice 6 12 sF) with (share blue forward sF).
  rewrite (forEach_set_items _ blue _ Hnd (Hs blue forward)).
  reflexivity.
Qed.

(** The transaction of the split route, on an array with one item for each
    of [l]: every row whose id is in [l] gets the team [f] has for it. *)
Lemma transaction_items (f : Z -> option Team) (l rows : list GamePlayer) :
  fold_left Server.update (items f l) rows
  = map (fun r => if has_id (id r) l then set_team (f (id r)) r else r) rows.
Proof.
  revert rows. induction l as [|p l IH]; intro rows; cbn.
  - symmetry. apply map_id.
  - fold (items f l). rewrite IH. unfold Server.update. rewrite map_map.
    apply map_ext. intro r. cbn.
    rewrite (Z.eqb_sym (id p) (id r)).
    destruct (id r =? id p) eqn:E; cbn.
    + apply Z.eqb_eq in E. rewrite E. now destruct (has_id (id p) l).
    + reflexivity.
Qed.

Lemma transaction_in_sync (f : Z -> option Team) (rows : list GamePlayer) :
  fold_left Server.update (items f rows) rows
  = map (fun r => set_team (f (id r)) r) rows.
Proof.
  rewrite transaction_items. apply map_ext_in. intros r Hr.
  replace (has_id (id r) rows) with true; [reflexivity|].
  symmetry. apply has_id_true. now exists r.
Qed.

(** *** Pools that permute the participants of their position *)

Lemma Position_eqb_eq (a b : Position) : Position_eqb a b = true <-> a = b.
Proof. destruct a, b; cbn; split; congruence. Qed.

Lemma team_is_set (t u : option Team) (r : GamePlayer) :
  team_is t (set_team u r) = true <-> u = t.
Proof.
  unfold team_is. cbn.
  destruct u as [[|]|], t as [[|]|]; cbn; split; congruence.
Qed.

Section Shuffled.

Variable gamePlayers : list GamePlayer.
Variable shuffled : list GamePlayer * list GamePlayer * list GamePlayer.

Hypothesis ids_unique : NoDup (map id gamePlayers).
Hypothesis shuffled_permute :
  forall pos, Permutation (filter (App.is_position pos) gamePlayers)
                (pool_of pos shuffled).

Lemma pool_in (pos : Position) (p : GamePlayer) :
  In p (pool_of pos shuffled) <-> In p gamePlayers /\ position p = pos.
Proof.
  rewrite <- Position_eqb_eq.
  change (Position_eqb (position p) pos) with (App.is_position pos p).
  rewrite <- filter_In. split; apply Permutation_in.
  - symmetry. apply shuffled_permute.
  - apply shuffled_permute.
Qed.

Lemma pool_NoDup (pos : Position) : NoDup (pool_of pos shuffled).
Proof.
  apply (Permutation_NoDup (shuffled_permute pos)).
  apply NoDup_filter. now apply NoDup_map_inv in ids_unique.
Qed.

Lemma pool_ids (pos : Position) (p : GamePlayer) :
  In p (pool_of pos shuffled) -> In (id p) (map id gamePlayers).
Proof. intro H. apply in_map. now apply pool_in in H. Qed.

Lemma has_id_share (t : Team) (pos : Position) (r : GamePlayer) :
  In r gamePlayers ->
  has_id (id r) (share t pos (pool_of pos shuffled)) = true
  <-> In r (share t pos (pool_of pos shuffled)).
Proof.
  intro Hr. rewrite has_id_true. split.
  - intros [p [Hp Heq]].
    assert (In p gamePlayers).
    { apply share_incl in Hp. now apply pool_in in Hp. }
    now rewrite <- (id_injective gamePlayers p r ids_unique).
  - intro H. now exists r.
Qed.

Lemma has_id_elsewhere (t : Team) (pos : Position) (r : GamePlayer) :
  In r gamePlayers -> position r <> pos ->
  has_id (id r) (share t pos (pool_of pos shuffled)) = false.
Proof.
  intros Hr Hpos.
  destruct (has_id _ _) eqn:E; [|reflexivity].
  apply (has_id_share t pos r Hr), share_incl, pool_in in E. tauto.
Qed.

(** Only the two shares of a participant's own pool decide its team. *)
Lemma assignment_own_pool (r : GamePlayer) :
  In r gamePlayers ->
  assignment shuffled (id r)
  = if has_id (id r)
         (share blue (position r) (pool_of (position r) shuffled))
    then Some blue
    else if has_id (id r)
              (share red (position r) (pool_of (position r) shuffled))
         then Some red
         else None.
Proof.
  intro Hr. unfold assignment, paint.
  destruct (position r) eqn:E.
  - rewrite ?(has_id_elsewhere _ defense), ?(has_id_elsewhere _ goalie)
      by (auto; congruence). reflexivity.
  - rewrite ?(has_id_elsewhere _ forward), ?(has_id_elsewhere _ goalie)
      by (auto; congruence). reflexivity.
  - rewrite ?(has_id_elsewhere _ forward), ?(has_id_elsewhere _ defense)
      by (auto; congruence). reflexivity.
Qed.

(** A participant has team [t] after the split exactly when it is in the
    share of [t] of its pool. *)
Lemma assignment_share (t : Team) (r : GamePlayer) :
  In r gamePlayers ->
  assignment shuffled (id r) = Some t
  <-> In r (share t (position r) (pool_of (position r) shuffled)).
Proof.
  intro Hr. rewrite (assignment_own_pool r Hr).
  pose proof (has_id_share red (position r) r Hr) as HR.
  pose proof (has_id_share blue (position r) r Hr) as HB.
  pose proof (share_disjoint (position r) _ r (pool_NoDup (position r)))
    as Hdis.
  destruct (has_id _ (share blue _ _)), (has_id _ (share red _ _)), t;
    split; intro H; try congruence; try tauto.
  all: try (exfalso; apply Hdis; tauto).
  all: try (apply HR in H; discriminate).
  all: try (apply HB in H; discriminate).
Qed.


(** On the rows the registry has once it applied the array of
    [splitTeams], a team has of a position what its share of the pool
    has. *)
Lemma members_count (t : Team) (pos : Position) :
  List.length
    (App.members t pos
       (map (fun r => set_team (assignment shuffled (id r)) r) gamePlayers))
  = List.length (share t pos (pool_of pos shuffled)).
Proof.
  unfold App.members. rewrite filter_map_swap, length_map.
  apply Permutation_length, NoDup_Permutation.
  - apply NoDup_filter. now apply NoDup_map_inv in ids_unique.
  - apply share_NoDup, pool_NoDup.
  - intro r. rewrite filter_In, andb_true_iff, team_is_set.
    unfold App.is_position. cbn [position set_team].
    rewrite Position_eqb_eq. split.
    + intros [Hr [Hpos Ht]]. apply (assignment_share t r Hr) in Ht.
      now rewrite Hpos in Ht.
    + intro H. pose proof (share_incl _ _ _ _ H) as Hin.
      apply pool_in in Hin. destruct Hin as [Hr Hpos].
      repeat split; auto. apply (assignment_share t r Hr).
      now rewrite Hpos.
Qed.

End Shuffled.

Lemma assigned_count (rows : list GamePlayer) :
  List.length (assigned rows)
  = (List.length (App.members red goalie rows)
     + List.length (App.members blue goalie rows)
     + (List.length (App.members red defense rows)
        + List.length (App.members blue defense rows))
     + (List.length (App.members red forward rows)
        + List.length (App.members blue forward rows)))%nat.
Proof.
  induction rows as [|p rows IH]; [reflexivity|].
  unfold assigned, App.members, App.is_position, team_is in *.
  cbn [filter].
  destruct (position p), (team p) as [[|]|]; cbn in *; lia.
Qed.

(** *** The split, end to end *)

Section SplitTeams.

Variable sort : forall T : Type, list T -> Plan T (list T).

Hypothesis sort_permutes :
  forall (T : Type) (l : list T), Leaves (Permutation l) (sort T l).

(** With two participants or more, [splitTeams] posts its array, the
    registry applies it, and each row has the team of the assignment. *)
Lemma splitTeams_posted (s : Server.Store) (src : RandomSource) :
  NoDup (map id (Server.current_game s)) ->
  (2 <= List.length (Server.current_game s))%nat ->
  exists s',
    App.splitTeams sort (Server.current_game s) src s = App.posted s' []
    /\ Server.current_game s'
       = map (fun r =>
                set_team
                  (assignment (App.pools sort (Server.current_game s) src)
                     (id r)) r)
           (Server.current_game s)
    /\ Server.clients s'
       = map (after_sending [TEAMS_UPDATED]) (Server.clients s).
Proof.
  intros Hnd Hlen. unfold App.splitTeams.
  apply Nat.ltb_ge in Hlen. rewrite Hlen.
  pose proof (pools_permute sort sort_permutes (Server.current_game s) src)
    as Hperm.
  destruct (App.pools sort (Server.current_game s) src) as [[sG sD] sF].
  rewrite (teamsUpdate_items _ sG sD sF Hnd
             (pool_ids _ _ Hperm)).
  cbn. eexists. split; [reflexivity|]. cbn. split.
  - apply transaction_in_sync.
  - apply map_ext. intro c. apply send_after_sending.
Qed.

(** C3: after a split, by a viewer that shows the session, of a session of
    two or more, whatever the random source, the red team has, of each
    position, the quota (1 goalie, 4 defenders, 6 forwards) or the whole pool
    when the pool is smaller; the blue team has the quota or what the red
    team's share has left of the pool; neither has more than the quota;
    together they have the pool or twice the quota when the pool is larger;
    and so have, summed over the positions, the participants with a team. *)
Theorem split_quotas (s : Server.Store) (src : RandomSource) :
  NoDup (map id (Server.current_game s)) ->
  (2 <= List.length (Server.current_game s))%nat ->
  exists s',
    App.splitTeams sort (Server.current_game s) src s = App.posted s' []
    /\ (forall pos,
          let available :=
            List.length
              (filter (App.is_position pos) (Server.current_game s)) in
          List.length (App.members red pos (Server.current_game s'))
          = Nat.min available (quota pos)
          /\ List.length (App.members blue pos (Server.current_game s'))
             = Nat.min (available - quota pos) (quota pos)
          /\ (List.length (App.members red pos (Server.current_game s'))
              <= quota pos)%nat
          /\ (List.length (App.members blue pos (Server.current_game s'))
              <= quota pos)%nat
          /\ (List.length (App.members red pos (Server.current_game s'))
              + List.length (App.members blue pos (Server.current_game s')))%nat
             = Nat.min available (2 * quota pos))
    /\ List.length (assigned (Server.current_game s'))
       = (Nat.min
            (List.length
               (filter (App.is_position goalie) (Server.current_game s)))
            (2 * 1)
          + Nat.min
              (List.length
                 (filter (App.is_position defense) (Server.current_game s)))
              (2 * 4)
          + Nat.min
              (List.length
                 (filter (App.is_position forward) (Server.current_game s)))
              (2 * 6))%nat.
Proof.
  intros Hnd Hlen.
  destruct (splitTeams_posted s src Hnd Hlen) as [s' [Hs' [Hrows _]]].
  exists s'. split; [exact Hs'|].
  pose proof (pools_permute sort sort_permutes (Server.current_game s) src)
    as Hperm.
  assert (Hcount : forall t pos,
             List.length (App.members t pos (Server.current_game s'))
             = List.length
                 (share t pos
                    (pool_of pos
                       (App.pools sort (Server.current_game s) src)))).
  { intros t pos. rewrite Hrows. now apply members_count. }
  assert (Hsize : forall pos,
             List.length
               (pool_of pos (App.pools sort (Server.current_game s) src))
             = List.length
                 (filter (App.is_position pos) (Server.current_game s))).
  { intro pos. symmetry. apply Permutation_length, Hperm. }
  assert (Hpos : forall pos,
             List.length (App.members red pos (Server.current_game s'))
             = Nat.min
                 (List.length
                    (filter (App.is_position pos) (Server.current_game s)))
                 (quota pos)
             /\ List.length (App.members blue pos (Server.current_game s'))
                = Nat.min
                    (List.length
                       (filter (App.is_position pos)
                          (Server.current_game s)) - quota pos)
                    (quota pos)).
  { intro pos. rewrite !Hcount.
    destruct (share_length pos
                (pool_of pos (App.pools sort (Server.current_game s) src)))
      as [-> ->].
    rewrite Hsize. lia. }
  split.
  - intros pos available. destruct (Hpos pos) as [HR HB].
    fold available in HR, HB. lia.
  - rewrite assigned_count.
    destruct (Hpos goalie) as [-> ->], (Hpos defense) as [-> ->],
      (Hpos forward) as [-> ->].
    cbn [quota]. lia.
Qed.


End SplitTeams.

(** ** The insertion sort as an engine *)

Lemma Leaves_bind {T A B} (P : A -> Prop) (R : B -> Prop) (p : Plan T A)
    (f : A -> Plan T B) :
  Leaves P p -> (forall a, P a -> Leaves R (f a)) -> Leaves R (bind p f).
Proof.
  induction p as [a|x y k IH]; cbn; intros Hp Hf.
  - now apply Hf.
  - intro v. now apply IH.
Qed.

Lemma insertion_permutes {T} (x : T) (sorted : list T) :
  Leaves (Permutation (x :: sorted)) (insertion x sorted).
Proof.
  induction sorted as [|y rest IH]; cbn; [reflexivity|].
  intro v. destruct (v ?= 0)%Q; cbn; try reflexivity.
  all: apply (Leaves_bind (Permutation (x :: rest))); [exact IH|].
  all: intros r Hr; cbn; rewrite perm_swap; now apply perm_skip.
Qed.

Lemma insertion_sort_permutes (T : Type) (array : list T) :
  Leaves (Permutation array) (insertion_sort array).
Proof.
  induction array as [|x rest IH]; cbn; [reflexivity|].
  apply (Leaves_bind (Permutation rest)); [exact IH|].
  intros r Hr.
  assert (Hi := insertion_permutes x r).
  revert Hi. generalize (insertion x r).
  induction p as [a|a b k IHp]; cbn.
  - intro H. rewrite <- H. now apply perm_skip.
  - intros H v. apply IHp, H.
Qed.

(** On three elements the insertion sort asks at most three questions. *)
Lemma insertion_sort_within3 {T} (a b c : T) :
  Within 3 (insertion_sort [a; b; c]).
Proof.
  cbn. intro v1. destruct (v1 ?= 0)%Q; cbn; intro v2.
  all: destruct (v2 ?= 0)%Q; cbn; try exact I.
  all: intro v3; destruct (v3 ?= 0)%Q; exact I.
Qed.

(** ** The shuffle is not uniform *)

(** A plan that asks at most [n] questions reads at most [n] draws: two
    random sources that agree on their first [n] draws give the same
    shuffle, so the prefixes of length [n] decide the outcome. *)
Lemma shuffle_reads_prefix (sort : forall T : Type, list T -> Plan T (list T))
    {T} (array : list T) (n : nat) :
  Within n (sort T array) ->
  forall src src' : RandomSource,
    (forall i, (i < n)%nat -> src i = src' i) ->
    fst (App.shuffle sort array src) = fst (App.shuffle sort array src').
Proof.
  unfold App.shuffle. generalize (sort T array). intro p. revert n.
  induction p as [a|x y k IH]; cbn; intros n Hn src src' Hagree.
  - reflexivity.
  - destruct n as [|n]; [contradiction|].
    rewrite (Hagree 0%nat) by lia.
    apply (IH _ n (Hn _)). intros i Hi. apply Hagree. lia.
Qed.

Lemma draws_length (bits : nat) : List.length (draws bits) = (2 ^ bits)%nat.
Proof. unfold draws. now rewrite length_map, length_seq. Qed.

Lemma prefixes_length (bits n : nat) :
  List.length (prefixes bits n) = (2 ^ (bits * n))%nat.
Proof.
  induction n as [|n IH]; cbn [prefixes].
  - now rewrite Nat.mul_0_r.
  - rewrite flat_map_constant_length with (c := (2 ^ (bits * n))%nat).
    + rewrite draws_length, <- Nat.pow_add_r. f_equal. lia.
    + intros r _. now rewrite length_map.
Qed.

Lemma pow2_mod3 (k : nat) :
  exists q, (2 ^ k = 3 * q + 1 \/ 2 ^ k = 3 * q + 2)%nat.
Proof.
  induction k as [|k [q [H|H]]].
  - exists 0%nat. now left.
  - exists (2 * q)%nat. right. rewrite Nat.pow_succ_r'. lia.
  - exists (2 * q + 1)%nat. left. rewrite Nat.pow_succ_r'. lia.
Qed.

Lemma same_order_iff (r o : list GamePlayer) : same_order r o = true <-> r = o.
Proof.
  unfold same_order. destruct (list_eq_dec GamePlayer_eq_dec r o);
    split; congruence.
Qed.

Lemma list_sum_cons (x : nat) (l : list nat) :
  list_sum (x :: l) = (x + list_sum l)%nat.
Proof. reflexivity. Qed.

Lemma no_match (L : list (list GamePlayer)) (r : list GamePlayer) :
  ~ In r L ->
  list_sum (map (fun o => if same_order r o then 1%nat else 0%nat) L) = 0%nat.
Proof.
  induction L as [|o L IH]; intro Hnotin; [reflexivity|].
  rewrite map_cons, list_sum_cons, IH by (intro H; apply Hnotin; now right).
  destruct (same_order r o) eqn:E; [|reflexivity].
  apply same_order_iff in E. subst o. exfalso. apply Hnotin. now left.
Qed.

(** Each element of a list without repetition is matched by exactly one. *)
Lemma one_match (L : list (list GamePlayer)) (r : list GamePlayer) :
  NoDup L -> In r L ->
  list_sum (map (fun o => if same_order r o then 1%nat else 0%nat) L) = 1%nat.
Proof.
  induction L as [|o L IH]; [intros _ []|].
  intros Hnd Hin. inversion Hnd as [|? ? Hnotin Hnd']; subst.
  rewrite map_cons, list_sum_cons.
  destruct (same_order r o) eqn:E.
  - apply same_order_iff in E. subst o. now rewrite no_match.
  - destruct Hin as [->|Hin].
    + assert (same_order r r = true) by now apply same_order_iff.
      congruence.
    + now rewrite IH.
Qed.

(** When every outcome is one of [L], the counts over [L] add up to the
    number of the runs. *)
Lemma counts_add_up {X} (res : X -> list GamePlayer)
    (L : list (list GamePlayer)) (runs : list X) :
  NoDup L -> (forall x, In x runs -> In (res x) L) ->
  list_sum
    (map (fun o => List.length (filter (fun x => same_order (res x) o) runs)) L)
  = List.length runs.
Proof.
  intros Hnd. induction runs as [|x runs IH]; intro Hres.
  - clear. induction L as [|o L IHL]; [reflexivity|].
    now rewrite map_cons, list_sum_cons, IHL.
  - transitivity
      (list_sum
         (map (fun o => if same_order (res x) o then 1%nat else 0%nat) L)
       + list_sum
           (map (fun o =>
                   List.length (filter (fun y => same_order (res y) o) runs))
              L))%nat.
    + clear. induction L as [|o L IHL]; [reflexivity|].
      rewrite !map_cons, !list_sum_cons, IHL. cbn [filter].
      destruct (same_order (res x) o); cbn [List.length]; lia.
    + rewrite (one_match L (res x) Hnd (Hres x (or_introl eq_refl))).
      rewrite IH by (intros; apply Hres; now right). reflexivity.
Qed.

Lemma three_distinct {T} (a b c : T) :
  NoDup [a; b; c] <-> a <> b /\ a <> c /\ b <> c.
Proof.
  split.
  - intro H. inversion H as [|? ? H1 H']; subst.
    inversion H' as [|? ? H2 _]; subst. cbn in *. intuition congruence.
  - intros [Hab [Hac Hbc]]. repeat constructor; cbn; intuition congruence.
Qed.

Lemma orderings3_complete {T} (a b c : T) (r : list T) :
  NoDup [a; b; c] -> Permutation [a; b; c] r -> In r (orderings3 a b c).
Proof.
  intros Hnd Hperm.
  pose proof (Permutation_length Hperm) as Hlen.
  pose proof (Permutation_NoDup Hperm Hnd) as Hnd'.
  destruct r as [|x [|y [|z [|? ?]]]]; try discriminate.
  apply three_distinct in Hnd'. destruct Hnd' as [Hxy [Hxz Hyz]].
  assert (Hx : In x [a; b; c])
    by (apply (Permutation_in _ (Permutation_sym Hperm)); cbn; auto).
  assert (Hy : In y [a; b; c])
    by (apply (Permutation_in _ (Permutation_sym Hperm)); cbn; auto).
  assert (Hz : In z [a; b; c])
    by (apply (Permutation_in _ (Permutation_sym Hperm)); cbn; auto).
  cbn in Hx, Hy, Hz.
  destruct Hx as [<-|[<-|[<-|[]]]], Hy as [<-|[<-|[<-|[]]]],
    Hz as [<-|[<-|[<-|[]]]]; try congruence; cbn; auto 10.
Qed.

Lemma orderings3_NoDup {T} (a b c : T) :
  NoDup [a; b; c] -> NoDup (orderings3 a b c).
Proof.
  intro H. apply three_distinct in H. destruct H as [Hab [Hac Hbc]].
  unfold orderings3.
  repeat constructor; cbn; intuition congruence.
Qed.

(** C2, as the code has it: [shuffle] sorts with a comparator that answers
    at random.  Whatever procedure the engine's sort follows, and whatever
    the resolution of the random source and the number of draws counted, of
    the six orderings of a pool of three there are two that do not come out
    of the same number of equally likely runs: the shuffle is not a uniform
    permutation. *)
Theorem comparator_shuffle_not_uniform
    (sort : forall T : Type, list T -> Plan T (list T))
    (bits n : nat) (a b c : GamePlayer) :
  Leaves (Permutation [a; b; c]) (sort GamePlayer [a; b; c]) ->
  NoDup [a; b; c] ->
  exists o o',
    In o (orderings3 a b c) /\ In o' (orderings3 a b c)
    /\ ways sort bits n [a; b; c] o <> ways sort bits n [a; b; c] o'.
Proof.
  intros Hperm Hnd.
  pose proof (counts_add_up
                (fun prefix =>
                   fst (App.shuffle sort [a; b; c] (source_of prefix)))
                (orderings3 a b c) (prefixes bits n)
                (orderings3_NoDup a b c Hnd)) as Hsum.
  rewrite prefixes_length in Hsum.
  assert (Hin : forall x, In x (prefixes bits n) ->
                In (fst (App.shuffle sort [a; b; c] (source_of x)))
                  (orderings3 a b c)).
  { intros x _. apply orderings3_complete; [exact Hnd|].
    unfold App.shuffle. now apply (run_Leaves (Permutation [a; b; c])). }
  specialize (Hsum Hin). clear Hin.
  fold (ways sort bits n [a; b; c]) in Hsum.
  change (fun o => List.length
            (filter (fun x => same_order
                                (fst (App.shuffle sort [a; b; c] (source_of x)))
                                o) (prefixes bits n)))
    with (ways sort bits n [a; b; c]) in Hsum.
  cbn [orderings3 map list_sum] in Hsum.
  destruct (pow2_mod3 (bits * n)) as [q Hq].
  set (w := ways sort bits n [a; b; c]) in *.
  destruct (Nat.eq_dec (w [a; b; c]) (w [a; c; b])) as [E1|E1];
    [|exists [a; b; c], [a; c; b]; cbn; auto 10].
  destruct (Nat.eq_dec (w [a; b; c]) (w [b; a; c])) as [E2|E2];
    [|exists [a; b; c], [b; a; c]; cbn; auto 10].
  destruct (Nat.eq_dec (w [a; b; c]) (w [b; c; a])) as [E3|E3];
    [|exists [a; b; c], [b; c; a]; cbn; auto 10].
  destruct (Nat.eq_dec (w [a; b; c]) (w [c; a; b])) as [E4|E4];
    [|exists [a; b; c], [c; a; b]; cbn; auto 10].
  destruct (Nat.eq_dec (w [a; b; c]) (w [c; b; a])) as [E5|E5];
    [|exists [a; b; c], [c; b; a]; cbn; auto 10].
  exfalso. unfold list_sum in Hsum. cbn [fold_right] in Hsum.
  rewrite <- E1, <- E2, <- E3, <- E4, <- E5 in Hsum. lia.
Qed.

(** On a pool of three, with a random source of four values and three
    draws, the insertion sort returns two of the orderings on 16 of the 64
    runs and each of the others on 8. *)
Example insertion_sort_counts :
  map (ways (@insertion_sort) 2 3 pool3)
    (orderings3 (player 1 "Alice" defense None) (player 5 "Emil" defense None)
       (player 7 "Gustav" defense None))
  = [16; 16; 8; 8; 8; 8]%nat.
Proof. vm_compute. reflexivity. Qed.

Lemma comparator_shuffle_not_uniform_witness :
  exists o o',
    In o (orderings3 (player 1 "Alice" defense None)
            (player 5 "Emil" defense None) (player 7 "Gustav" defense None))
    /\ In o' (orderings3 (player 1 "Alice" defense None)
                (player 5 "Emil" defense None)
                (player 7 "Gustav" defense None))
    /\ ways (@insertion_sort) 53 3 pool3 o
       <> ways (@insertion_sort) 53 3 pool3 o'.
Proof.
  apply (comparator_shuffle_not_uniform (@insertion_sort) 53 3
           (player 1 "Alice" defense None) (player 5 "Emil" defense None)
           (player 7 "Gustav" defense None)).
  - apply insertion_sort_permutes.
  - apply three_distinct. repeat split; discriminate.
Defined.

(** ** The registry keeps the ids distinct *)

Lemma lastInsertRowid_fresh (s : Server.Store) (p : GamePlayer) :
  In p (Server.current_game s) -> id p < Server.lastInsertRowid s.
Proof.
  unfold Server.lastInsertRowid. generalize (Server.sqlite_sequence s).
  induction (Server.current_game s) as [|a l IH]; cbn; [tauto|].
  intros z [->|Hin]; [lia|]. specialize (IH z Hin). lia.
Qed.

Lemma signup_ids_unique (name0 : string) (position0 : Position)
    (s : Server.Store) :
  NoDup (map id (Server.current_game s)) ->
  NoDup (map id (Server.current_game (fst (Server.signup name0 position0 s)))).
Proof.
  intro H. unfold Server.signup.
  destruct (find _ (Server.current_game s)); cbn; [exact H|].
  rewrite map_app. cbn. apply NoDup_app; [exact H|repeat constructor; auto|].
  intros x Hx [<-|[]]. apply in_map_iff in Hx. destruct Hx as [p [Heq Hp]].
  apply lastInsertRowid_fresh in Hp. lia.
Qed.

Lemma split_ids_unchanged (teams : list Server.TeamItem) (s : Server.Store) :
  map id (Server.current_game (fst (Server.split teams s)))
  = map id (Server.current_game s).
Proof.
  cbn. generalize (Server.current_game s).
  induction teams as [|item teams IH]; intro rows; cbn; [reflexivity|].
  rewrite IH. unfold Server.update. rewrite map_map. apply map_ext.
  intro r. now destruct (id r =? Server.item_id item).
Qed.

Lemma remove_ids_unique (id0 : Z) (s : Server.Store) :
  NoDup (map id (Server.current_game s)) ->
  NoDup (map id (Server.current_game (fst (Server.remove id0 s)))).
Proof.
  cbn. induction (Server.current_game s) as [|a l IH]; cbn; [auto|].
  intro H. inversion H as [|? ? Hnotin Hnd]; subst.
  destruct (negb (id a =? id0)); cbn; [|auto].
  constructor; [|auto]. intro Hin. apply Hnotin.
  apply in_map_iff in Hin. destruct Hin as [p [Heq Hp]].
  apply filter_In in Hp. rewrite <- Heq. apply in_map. tauto.
Qed.

(** ** Instances *)

Lemma fresh_name (name0 : string) (rows : list GamePlayer) :
  find (fun r => String.eqb (name r) name0) rows = None ->
  forall p, In p rows -> name p <> name0.
Proof.
  intros H p Hp Heq. apply (find_none _ _ H) in Hp. cbn in Hp.
  rewrite Heq, String.eqb_refl in Hp. discriminate.
Qed.

Lemma absent_id (id0 : Z) (rows : list GamePlayer) :
  has_id id0 rows = false -> forall p, In p rows -> id p <> id0.
Proof. apply has_id_false. Qed.

(** C1, where the code breaks it: the signup route checks the name and
    nothing else.  On a session of 22 participants a signup with a fresh
    name is answered with status 200 and stored as the 23rd participant; the
    limit of 22 that the viewer's [signUp] checks on its own projection is
    not kept at the registry. *)
Lemma signup_beyond_capacity_accepted :
  List.length (Server.current_game session22) = 22%nat
  /\ Server.status (snd (Server.signup "Zed" goalie session22)) = 200
  /\ Server.current_game (fst (Server.signup "Zed" goalie session22))
     = Server.current_game session22 ++ [player 23 "Zed" goalie None]
  /\ List.length
       (Server.current_game (fst (Server.signup "Zed" goalie session22)))
     = 23%nat.
Proof. vm_compute. repeat split. Qed.

Lemma signUp_capacity_gate_witness :
  App.signUp (Server.current_game session22) "Zed" goalie session22
  = (session22, ["Maximálny počet hráčov (22) bol dosiahnutý."])
  /\ (Server.current_game
        (fst (App.signUp (Server.current_game session21) "P22" forward
                session21))
      = Server.current_game session21 ++ [player 22 "P22" forward None]
      /\ snd (App.signUp (Server.current_game session21) "P22" forward
                session21) = [])
  /\ (List.length
        (Server.current_game (fst (Server.signup "Zed" goalie session22)))
      = 23%nat
      /\ Server.status (snd (Server.signup "Zed" goalie session22)) = 200)
  /\ (List.length
        (Server.current_game
           (fst (App.signUp (Server.current_game session22) "Zed" goalie
                   session22))) <= 22)%nat.
Proof.
  destruct (signUp_capacity_gate (Server.current_game session22) "Zed" goalie
              session22) as [H1 [_ [H3 H4]]].
  destruct (signUp_capacity_gate (Server.current_game session21) "P22" forward
              session21) as [_ [H2 _]].
  split; [apply H1; vm_compute; lia|].
  split; [apply H2; [vm_compute; lia|apply fresh_name; reflexivity]|].
  split; [apply H3, fresh_name; reflexivity|].
  apply H4; [reflexivity|vm_compute; lia].
Defined.

Lemma signup_duplicate_rejected_witness :
  Server.signup "Alice" forward session5
  = (session5, {| Server.status := 400;
                  Server.body := Server.error_body "Hráč je už nahlásený" |}).
Proof.
  apply signup_duplicate_rejected.
  exists (player 1 "Alice" defense None). split; [now left|reflexivity].
Defined.

Lemma remove_always_broadcasts_witness :
  snd (Server.remove 99 session5) = Server.json Server.success_body
  /\ Server.clients (fst (Server.remove 99 session5))
     = [{| Server.readyState := Server.OPEN;
           Server.received := [SIGNUP_REMOVED 99] |}]
  /\ Server.current_game (fst (Server.remove 99 session5))
     = Server.current_game session5.
Proof.
  destruct (remove_always_broadcasts 99 session5) as [H1 [H2 [_ H4]]].
  split; [exact H1|]. split; [exact H2|].
  apply H4, absent_id. reflexivity.
Defined.

Lemma onmessage_tolerates_witness :
  App.onmessage session5 (SIGNUP_UPDATE (player 2 "Bob" goalie None))
    (Server.current_game session5) = Server.current_game session5
  /\ App.onmessage session5 (SIGNUP_REMOVED 99) (Server.current_game session5)
     = Server.current_game session5.
Proof.
  destruct (onmessage_tolerates session5 (Server.current_game session5))
    as [H1 H2].
  split.
  - apply H1. exists (player 2 "Bob" goalie (Some blue)).
    split; [right; now left|reflexivity].
  - apply H2, absent_id. reflexivity.
Defined.

Lemma toggleTeam_frame_witness :
  List.length
    (Server.current_game
       (App.toggleTeam (player 2 "Bob" goalie (Some blue)) session5))
  = 5%nat
  /\ nth_error
       (Server.current_game
          (App.toggleTeam (player 2 "Bob" goalie (Some blue)) session5)) 0
     = Some (player 1 "Alice" defense None).
Proof.
  destruct (toggleTeam_frame (player 2 "Bob" goalie (Some blue)) session5 0
              (player 1 "Alice" defense None) eq_refl) as [H1 [H2 _]].
  split; [exact H1|]. apply H2. cbn. lia.
Defined.

Lemma toggleTeam_follows_viewer_witness :
  nth_error
    (Server.current_game
       (App.toggleTeam (player 2 "Bob" goalie None) session5)) 1
  = Some (player 2 "Bob" goalie (Some red))
  /\ nth_error
       (Server.current_game
          (fst (onClick_listening 0 0
                  (session5, Server.current_game session5)))) 0
     = Some (player 1 "Alice" defense (Some red))
  /\ nth_error
       (Server.current_game
          (fst (onClick_listening 0 0
                  (onClick_listening 0 0
                     (session5, Server.current_game session5))))) 0
     = Some (player 1 "Alice" defense (Some blue))
  /\ nth_error
       (Server.current_game
          (fst (onClick_listening 0 0
                  (onClick_listening 0 0
                     (onClick_listening 0 0
                        (session5, Server.current_game session5)))))) 0
     = Some (player 1 "Alice" defense None).
Proof.
  destruct (toggleTeam_follows_viewer (player 2 "Bob" goalie None)
              (player 2 "Bob" goalie (Some blue)) session5 1 0
              {| Server.readyState := Server.OPEN; Server.received := [] |}
              eq_refl eq_refl) as [HA _].
  destruct (toggleTeam_follows_viewer (player 1 "Alice" defense None)
              (player 1 "Alice" defense None) session5 0 0
              {| Server.readyState := Server.OPEN; Server.received := [] |}
              eq_refl eq_refl) as [_ [_ [_ [_ [_ H]]]]].
  split; [exact HA|].
  destruct (H eq_refl eq_refl eq_refl) as [H1 [H2 [H3 _]]].
  split; [exact H1|]. split; [exact H2|exact H3].
Defined.

(** The object the viewer holds decides, not the row: invoked a second time
    with the object as it was rendered, the override leaves the row red; and
    a viewer whose connection is closed, which is sent nothing and so keeps
    what it shows, leaves the row red after three overrides. *)
Lemma toggleTeam_stale_object :
  nth_error
    (Server.current_game
       (App.toggleTeam (player 1 "Alice" defense None) session5)) 0
  = Some (player 1 "Alice" defense (Some red))
  /\ nth_error
       (Server.current_game
          (App.toggleTeam (player 1 "Alice" defense None)
             (App.toggleTeam (player 1 "Alice" defense None) session5))) 0
     = Some (player 1 "Alice" defense (Some red))
  /\ nth_error
       (Server.current_game
          (fst (onClick_listening 0 0
                  (onClick_listening 0 0
                     (onClick_listening 0 0
                        (session5_offline,
                         Server.current_game session5_offline)))))) 0
     = Some (player 1 "Alice" defense (Some red)).
Proof. vm_compute. repeat split. Qed.

Lemma session5_ids_unique : NoDup (map id (Server.current_game session5)).
Proof. repeat constructor; cbn; lia. Qed.

Lemma split_quotas_witness :
  exists s',
    App.splitTeams (@insertion_sort) (Server.current_game session5)
      alternating session5 = App.posted s' []
    /\ List.length (App.members red goalie (Server.current_game s')) = 1%nat
    /\ List.length (App.members blue goalie (Server.current_game s')) = 1%nat
    /\ List.length (App.members red defense (Server.current_game s')) = 2%nat
    /\ List.length (App.members blue defense (Server.current_game s')) = 0%nat
    /\ List.length (App.members red forward (Server.current_game s')) = 1%nat
    /\ List.length (App.members blue forward (Server.current_game s')) = 0%nat
    /\ List.length (assigned (Server.current_game s')) = 5%nat.
Proof.
  destruct (split_quotas (@insertion_sort) insertion_sort_permutes session5
              alternating session5_ids_unique) as [s' [H1 [H2 H3]]].
  - cbn. lia.
  - exists s'. split; [exact H1|].
    split; [exact (proj1 (H2 goalie))|].
    split; [exact (proj1 (proj2 (H2 goalie)))|].
    split; [exact (proj1 (H2 defense))|].
    split; [exact (proj1 (proj2 (H2 defense)))|].
    split; [exact (proj1 (H2 forward))|].
    split; [exact (proj1 (proj2 (H2 forward)))|].
    exact H3.
Defined.


(** * More of the registry *)

(** ** What every route keeps *)

Lemma NoDup_map_filter {A B} (f : A -> B) (g : A -> bool) (l : list A) :
  NoDup (map f l) -> NoDup (map f (filter g l)).
Proof.
  induction l as [|a l IH]; cbn; [auto|].
  intro H. inversion H as [|? ? Hnotin Hnd]; subst.
  destruct (g a); cbn; [|auto].
  constructor; [|auto]. intro Hin. apply Hnotin.
  apply in_map_iff in Hin. destruct Hin as [p [Heq Hp]].
  apply filter_In in Hp. rewrite <- Heq. apply in_map. tauto.
Qed.

Lemma transaction_keeps {B} (proj : GamePlayer -> B)
    (teams : list Server.TeamItem) (rows : list GamePlayer) :
  (forall t r, proj (set_team t r) = proj r) ->
  map proj (fold_left Server.update teams rows) = map proj rows.
Proof.
  intro Hproj. revert rows.
  induction teams as [|item teams IH]; intro rows; cbn; [reflexivity|].
  rewrite IH. unfold Server.update. rewrite map_map. apply map_ext.
  intro r. now destruct (id r =? Server.item_id item).
Qed.

Lemma lastInsertRowid_above (s : Server.Store) :
  Server.sqlite_sequence s < Server.lastInsertRowid s.
Proof.
  unfold Server.lastInsertRowid.
  induction (map id (Server.current_game s)) as [|a l IH]; cbn; lia.
Qed.

Lemma signup_cases (name0 : string) (position0 : Position)
    (s : Server.Store) :
  (Server.signup name0 position0 s
   = (s, {| Server.status := 400;
            Server.body := Server.error_body "Hráč je už nahlásený" |})
   /\ exists p, In p (Server.current_game s) /\ name p = name0)
  \/ (Server.signup name0 position0 s
      = (Server.broadcast
           (SIGNUP_UPDATE
              {| id := Server.lastInsertRowid s; name := name0;
                 position := position0; team := None |})
           (Server.insert
              {| id := Server.lastInsertRowid s; name := name0;
                 position := position0; team := None |} s),
         Server.json
           (Server.signup_body
              {| id := Server.lastInsertRowid s; name := name0;
                 position := position0; team := None |}))
      /\ forall p, In p (Server.current_game s) -> name p <> name0).
Proof.
  unfold Server.signup.
  destruct (find _ (Server.current_game s)) as [q|] eqn:E.
  - left. split; [reflexivity|]. exists q.
    apply find_some in E. destruct E as [Hin Heq].
    now apply String.eqb_eq in Heq.
  - right. split; [reflexivity|]. now apply fresh_name.
Qed.

Lemma handle_sequence (r : Request) (s : Server.Store) :
  Server.sqlite_sequence s <= Server.sqlite_sequence (fst (handle r s)).
Proof.
  destruct r as [name0 position0|id0|teams|]; cbn; try lia.
  destruct (signup_cases name0 position0 s) as [[-> _]|[-> _]]; cbn; [lia|].
  pose proof (lastInsertRowid_above s). lia.
Qed.

Lemma serve_sequence (requests : list Request) (s : Server.Store) :
  Server.sqlite_sequence s <= Server.sqlite_sequence (serve requests s).
Proof.
  revert s. induction requests as [|r requests IH]; intro s; cbn; [lia|].
  specialize (IH (fst (handle r s))). unfold serve in IH.
  pose proof (handle_sequence r s). lia.
Qed.

Lemma handle_well_formed (r : Request) (s : Server.Store) :
  well_formed s -> well_formed (fst (handle r s)).
Proof.
  intros [Hid [Hname Hseq]].
  destruct r as [name0 position0|id0|teams|].
  - cbn [handle].
    pose proof (signup_ids_unique name0 position0 s Hid) as Hid'.
    destruct (signup_cases name0 position0 s) as [[E _]|[E Hnew]];
      rewrite E in *; [now repeat split|].
    split; [exact Hid'|]. cbn. split.
    + rewrite map_app. cbn.
      apply NoDup_app; [exact Hname|repeat constructor; auto|].
      intros x Hx [<-|[]]. apply in_map_iff in Hx.
      destruct Hx as [p [Heq Hp]]. now apply Hnew in Hp.
    + intros p Hp. apply in_app_or in Hp. destruct Hp as [Hp|[<-|[]]].
      * apply lastInsertRowid_fresh in Hp. lia.
      * cbn. lia.
  - cbn. repeat split.
    + now apply NoDup_map_filter.
    + now apply NoDup_map_filter.
    + intros p Hp. apply filter_In in Hp. now apply Hseq.
  - unfold well_formed, handle, Server.split, Server.broadcast,
      Server.transaction.
    cbn [fst Server.current_game Server.sqlite_sequence].
    split; [|split].
    + now rewrite transaction_keeps.
    + now rewrite transaction_keeps.
    + intros p Hp.
      assert (Hin : In (id p) (map id (Server.current_game s))).
      { rewrite <- (transaction_keeps id teams) by reflexivity.
        now apply in_map. }
      apply in_map_iff in Hin. destruct Hin as [q [Heq Hq]].
      rewrite <- Heq. now apply Hseq.
  - cbn. repeat split; try constructor. intros p [].
Qed.

(** X1: whatever requests the registry serves, in whatever order, the ids of
    the session stay distinct, its names stay distinct, and no id is above
    the AUTOINCREMENT counter. *)
Theorem serve_well_formed (requests : list Request) (s : Server.Store) :
  well_formed s -> well_formed (serve requests s).
Proof.
  revert s. induction requests as [|r requests IH]; intros s H; [exact H|].
  apply (IH (fst (handle r s))). now apply handle_well_formed.
Qed.

(** X2: an id that was in the session is never given to a later signup,
    whatever the registry served in between, removals and resets included. *)
Theorem signup_id_never_reused (requests : list Request) (s : Server.Store)
    (p q : GamePlayer) (name0 : string) (position0 : Position) :
  well_formed s -> In p (Server.current_game s) ->
  snd (Server.signup name0 position0 (serve requests s))
  = Server.json (Server.signup_body q) ->
  id p < id q.
Proof.
  intros [_ [_ Hseq]] Hp Hres.
  pose proof (serve_sequence requests s) as Hmono.
  pose proof (lastInsertRowid_above (serve requests s)) as Habove.
  destruct (signup_cases name0 position0 (serve requests s))
    as [[E _]|[E _]]; rewrite E in Hres; cbn in Hres.
  - discriminate.
  - injection Hres as <-. cbn. apply Hseq in Hp. lia.
Qed.

(** ** Signup and removal *)

(** X3: removing the participant a signup has just added gives back the rows
    there were before the signup; the counter stays at the id removed. *)
Theorem signup_then_remove (name0 : string) (position0 : Position)
    (s : Server.Store) :
  (forall p, In p (Server.current_game s) -> name p <> name0) ->
  exists q,
    snd (Server.signup name0 position0 s) = Server.json (Server.signup_body q)
    /\ Server.current_game
         (fst (Server.remove (id q) (fst (Server.signup name0 position0 s))))
       = Server.current_game s
    /\ Server.sqlite_sequence
         (fst (Server.remove (id q) (fst (Server.signup name0 position0 s))))
       = id q.
Proof.
  intro Hnew.
  destruct (signup_cases name0 position0 s) as [[_ [p [Hp Heq]]]|[E _]].
  - now apply Hnew in Hp.
  - rewrite E. eexists. split; [reflexivity|]. cbn. split; [|reflexivity].
    rewrite filter_app. cbn. rewrite Z.eqb_refl. cbn. rewrite app_nil_r.
    apply filter_all. intros p Hp. apply lastInsertRowid_fresh in Hp.
    apply negb_true_iff, Z.eqb_neq. lia.
Qed.

(** X4: after a removal no row has the id removed, every row of another id is
    still there, and a second removal of the same id changes no row. *)
Theorem remove_then_absent (id0 : Z) (s : Server.Store) :
  (forall p, In p (Server.current_game (fst (Server.remove id0 s))) ->
             id p <> id0)
  /\ (forall p, In p (Server.current_game s) -> id p <> id0 ->
                In p (Server.current_game (fst (Server.remove id0 s))))
  /\ Server.current_game
       (fst (Server.remove id0 (fst (Server.remove id0 s))))
     = Server.current_game (fst (Server.remove id0 s)).
Proof.
  cbn. split; [|split].
  - intros p Hp. apply filter_In in Hp. destruct Hp as [_ Hp].
    now apply negb_true_iff, Z.eqb_neq in Hp.
  - intros p Hp Hne. apply filter_In. split; [exact Hp|].
    now apply negb_true_iff, Z.eqb_neq.
  - apply filter_all. intros p Hp. apply filter_In in Hp. tauto.
Qed.

(** ** The split route on any request *)

Lemma find_app {A} (f : A -> bool) (l1 l2 : list A) :
  find f (l1 ++ l2)
  = match find f l1 with
    | Some x => Some x
    | None => find f l2
    end.
Proof.
  induction l1 as [|a l1 IH]; cbn; [reflexivity|]. now destruct (f a).
Qed.

(** X5: the split route gives each row the team of the last item that names its
    id, and leaves the rows no item names as they were; an item whose id is
    in no row changes nothing. *)
Theorem split_last_item_wins (teams : list Server.TeamItem)
    (s : Server.Store) :
  Server.current_game (fst (Server.split teams s))
  = map (fun r =>
           match last_item teams (id r) with
           | Some item => set_team (Server.item_team item) r
           | None => r
           end)
      (Server.current_game s).
Proof.
  cbn. generalize (Server.current_game s).
  induction teams as [|item teams IH]; intro rows; cbn [fold_left].
  - symmetry. apply map_id.
  - rewrite IH. unfold Server.update. rewrite map_map. apply map_ext.
    intro r. unfold last_item. cbn [rev]. rewrite find_app. cbn [find].
    assert (Hid : id (if id r =? Server.item_id item
                      then set_team (Server.item_team item) r else r) = id r)
      by now destruct (id r =? Server.item_id item).
    rewrite Hid.
    destruct (find _ (rev teams)) as [item'|].
    + now destruct (id r =? Server.item_id item).
    + rewrite (Z.eqb_sym (Server.item_id item) (id r)).
      now destruct (id r =? Server.item_id item).
Qed.

(** * More of the viewer *)

(** ** What is sent and what the viewer makes of it *)

Lemma after_sending_nil (c : Server.Client) : after_sending [] c = c.
Proof.
  unfold after_sending. destruct c as [[| | |] inbox]; cbn; try reflexivity.
  now rewrite app_nil_r.
Qed.

Lemma lastInsertRowid_not_found (s : Server.Store) (rows : list GamePlayer) :
  rows = Server.current_game s ->
  find (fun p => id p =? Server.lastInsertRowid s) rows = None.
Proof.
  intros ->. destruct (find _ _) as [q|] eqn:E; [|reflexivity].
  apply find_some in E. destruct E as [Hin Heq].
  apply Z.eqb_eq in Heq. apply lastInsertRowid_fresh in Hin. lia.
Qed.

(** X6: serving a request keeps the connections and their state; each open
    connection receives, after what it had, exactly what the request puts on
    the wire, and the others receive nothing. *)
Theorem handle_clients (r : Request) (s : Server.Store) :
  Server.clients (fst (handle r s))
  = map (after_sending (sent r s)) (Server.clients s).
Proof.
  destruct r as [name0 position0|id0|teams|]; unfold sent, handle.
  - unfold Server.signup. cbn [probe Server.current_game].
    destruct (find _ (Server.current_game s)); cbn.
    + erewrite map_ext; [symmetry; apply map_id|]. apply after_sending_nil.
    + apply map_ext. intro c. apply send_after_sending.
  - cbn. apply map_ext. intro c. apply send_after_sending.
  - cbn. apply map_ext. intro c. apply send_after_sending.
  - cbn. apply map_ext. intro c. apply send_after_sending.
Qed.

Lemma handle_view (r : Request) (s : Server.Store) :
  reduce (fst (handle r s)) (sent r s) (Server.current_game s)
  = Server.current_game (fst (handle r s)).
Proof.
  destruct r as [name0 position0|id0|teams|]; unfold sent, handle.
  - unfold Server.signup. cbn [probe Server.current_game].
    destruct (find _ (Server.current_game s)); cbn; [reflexivity|].
    now rewrite (lastInsertRowid_not_found s).
  - reflexivity.
  - reflexivity.
  - reflexivity.
Qed.

(** X7: a viewer that shows the session and applies, request after request,
    what the registry sends, shows the session after every sequence of
    requests. *)
Theorem viewer_tracks_registry (requests : list Request)
    (s : Server.Store) :
  fold_left serve_and_view requests (s, Server.current_game s)
  = (serve requests s, Server.current_game (serve requests s)).
Proof.
  revert s. induction requests as [|r requests IH]; intro s; [reflexivity|].
  cbn [fold_left]. unfold serve_and_view at 2. cbn [fst snd].
  rewrite handle_view. apply IH.
Qed.

(** ** The reducer *)

Lemma find_id_last (data : GamePlayer) (prev : list GamePlayer) :
  exists q, find (fun p => id p =? id data) (prev ++ [data]) = Some q.
Proof.
  rewrite find_app. destruct (find _ prev) as [q|]; [now exists q|].
  exists data. cbn. now rewrite Z.eqb_refl.
Qed.

(** X8: applying a message a second time changes nothing: a repeated
    [SIGNUP_UPDATE] adds no second copy, whatever the projection was. *)
Theorem onmessage_idempotent (s : Server.Store) (message : WebSocketMessage)
    (prev : list GamePlayer) :
  App.onmessage s message (App.onmessage s message prev)
  = App.onmessage s message prev.
Proof.
  destruct message as [data|id0| |]; cbn; try reflexivity.
  - destruct (find _ prev) as [q|] eqn:E.
    + now rewrite E.
    + destruct (find_id_last data prev) as [q Hq]. now rewrite Hq.
  - apply filter_all. intros p Hp. apply filter_In in Hp. tauto.
Qed.

(** X9: the ids of a projection stay distinct under every message, given that
    the registry's are. *)
Theorem onmessage_ids_unique (s : Server.Store) (message : WebSocketMessage)
    (prev : list GamePlayer) :
  NoDup (map id prev) -> NoDup (map id (Server.current_game s)) ->
  NoDup (map id (App.onmessage s message prev)).
Proof.
  intros Hprev Hs. destruct message as [data|id0| |]; cbn; try exact Hs.
  - destruct (find _ prev) as [q|] eqn:E; [exact Hprev|].
    rewrite map_app. cbn.
    apply NoDup_app; [exact Hprev|repeat constructor; auto|].
    intros x Hx [<-|[]]. apply in_map_iff in Hx.
    destruct Hx as [p [Heq Hp]]. apply (find_none _ _ E) in Hp.
    cbn in Hp. rewrite Heq, Z.eqb_refl in Hp. discriminate.
  - now apply NoDup_map_filter.
Qed.

(** ** Signing up through the viewer *)

Lemma signUp_duplicate_alert_shared (gamePlayers : list GamePlayer)
    (player_name : string) (player_position : Position) (s : Server.Store) :
  (List.length gamePlayers < 22)%nat ->
  (exists p, In p (Server.current_game s) /\ name p = player_name) ->
  App.signUp gamePlayers player_name player_position s
  = (s, ["Hráč je už nahlásený"]).
Proof.
  intros Hlt Hdup. unfold App.signUp, Server.signup.
  apply Nat.leb_gt in Hlt. rewrite Hlt.
  destruct (find_name_some _ _ Hdup) as [q ->]. reflexivity.
Qed.

(** X10: for a viewer that shows the session, with fewer than 22 in it, the
    signup button tells what the registry will answer: enabled, the signup
    adds the participant, unassigned and last, and nothing is alerted;
    disabled, the registry would refuse it as a duplicate and change
    nothing. *)
Theorem signUp_button_agrees (player_name : string)
    (player_position : Position) (s : Server.Store) :
  (List.length (Server.current_game s) < 22)%nat ->
  (signUp_disabled (Server.current_game s) player_name = false ->
   App.signUp (Server.current_game s) player_name player_position s
   = (fst (Server.signup player_name player_position s), [])
   /\ Server.current_game
        (fst (Server.signup player_name player_position s))
      = Server.current_game s
          ++ [{| id := Server.lastInsertRowid s; name := player_name;
                 position := player_position; team := None |}])
  /\ (signUp_disabled (Server.current_game s) player_name = true ->
      App.signUp (Server.current_game s) player_name player_position s
      = (s, ["Hráč je už nahlásený"])).
Proof.
  intro Hlt. unfold signUp_disabled. split; intro H.
  - assert (Hnew : forall p, In p (Server.current_game s) ->
                             name p <> player_name).
    { intros p Hp Heq.
      assert (existsb (fun gp => String.eqb (name gp) player_name)
                (Server.current_game s) = true); [|congruence].
      apply existsb_exists. exists p. split; [exact Hp|].
      now apply String.eqb_eq. }
    unfold App.signUp. apply Nat.leb_gt in Hlt. rewrite Hlt.
    destruct (signup_cases player_name player_position s)
      as [[_ [p [Hp Heq]]]|[E _]]; [now apply Hnew in Hp|].
    rewrite E. cbn. split; reflexivity.
  - apply signUp_duplicate_alert_shared; [exact Hlt|].
    apply existsb_exists in H. destruct H as [p [Hp Heq]].
    exists p. split; [exact Hp|]. now apply String.eqb_eq.
Qed.

(** ** Three overrides *)




(** ** The team lists and the copied text *)

(** X12: every participant is in exactly one of the three lists the viewer
    renders, and the copy button is disabled exactly when both teams are
    empty. *)
Theorem render_partition (gamePlayers : list GamePlayer) :
  Permutation gamePlayers
    (redTeam gamePlayers ++ blueTeam gamePlayers ++ unassigned gamePlayers)
  /\ (copy_disabled gamePlayers = true
      <-> redTeam gamePlayers = [] /\ blueTeam gamePlayers = []).
Proof.
  unfold redTeam, blueTeam, unassigned, copy_disabled. split.
  - induction gamePlayers as [|a l IH]; [constructor|].
    destruct a as [i n pos [[|]|]]; cbn [filter team_is team Team_eqb].
    + cbn [app]. now apply perm_skip.
    + cbn [app]. now apply Permutation_cons_app.
    + rewrite app_assoc. apply Permutation_cons_app. now rewrite <- app_assoc.
  - induction gamePlayers as [|a l IH]; [cbn; tauto|].
    destruct a as [i n pos [[|]|]];
      cbn [filter forallb team_is team Team_eqb andb].
    + split; [discriminate|]. intros [H _]. discriminate.
    + split; [discriminate|]. intros [_ H]. discriminate.
    + exact IH.
Qed.

Lemma filter_filter_implied {A} (f g : A -> bool) (l : list A) :
  (forall x, f x = true -> g x = true) -> filter f (filter g l) = filter f l.
Proof.
  intro H. induction l as [|a l IH]; cbn; [reflexivity|].
  destruct (g a) eqn:G; cbn; rewrite IH.
  - reflexivity.
  - destruct (f a) eqn:F; [|reflexivity]. apply H in F. congruence.
Qed.

(** X13: a participant without a team is in neither list the text is made of:
    the copied text is the text of the participants that have a team. *)
Theorem copyTeams_ignores_unassigned (gamePlayers : list GamePlayer) :
  copyTeams gamePlayers = copyTeams (assigned gamePlayers).
Proof.
  unfold copyTeams, redTeam, blueTeam, assigned.
  rewrite !filter_filter_implied; [reflexivity| |].
  all: intros x; unfold team_is; destruct (team x) as [[|]|]; cbn; congruence.
Qed.

(** * More of the split *)

Lemma position_partition (rows : list GamePlayer) :
  List.length rows
  = (List.length (filter (App.is_position goalie) rows)
     + List.length (filter (App.is_position defense) rows)
     + List.length (filter (App.is_position forward) rows))%nat.
Proof.
  induction rows as [|p rows IH]; [reflexivity|].
  destruct p as [i n [| |] t];
    cbn [filter App.is_position position Position_eqb List.length]; lia.
Qed.

Lemma team_members (t : Team) (rows : list GamePlayer) :
  List.length (filter (team_is (Some t)) rows)
  = (List.length (App.members t goalie rows)
     + List.length (App.members t defense rows)
     + List.length (App.members t forward rows))%nat.
Proof.
  unfold App.members. induction rows as [|p rows IH]; [reflexivity|].
  cbn [filter].
  destruct (team_is (Some t) p); destruct p as [i n [| |] u];
    cbn [filter App.is_position position Position_eqb List.length andb]; lia.
Qed.

Lemma assigned_unassigned (rows : list GamePlayer) :
  (List.length (assigned rows) + List.length (unassigned rows))%nat
  = List.length rows.
Proof.
  unfold assigned, unassigned. induction rows as [|p rows IH]; [reflexivity|].
  cbn [filter]. destruct (team_is None p); cbn; lia.
Qed.

Section MoreSplit.

Variable sort : forall T : Type, list T -> Plan T (list T).

Hypothesis sort_permutes :
  forall (T : Type) (l : list T), Leaves (Permutation l) (sort T l).

(** X14: [splitTeams] on any store, in sync with the viewer or not: with fewer
    than two participants shown it alerts and posts nothing; otherwise it
    never throws, the registry's rows whose id the viewer shows get the team
    of the assignment, the rows the viewer does not show keep theirs, and
    every open connection is sent one [TEAMS_UPDATED]. *)
Theorem splitTeams_any_store (gamePlayers : list GamePlayer)
    (src : RandomSource) (s : Server.Store) :
  NoDup (map id gamePlayers) ->
  ((List.length gamePlayers < 2)%nat ->
   App.splitTeams sort gamePlayers src s
   = App.insufficient "Potrebujete aspoň 2 hráčov na rozlosovanie.")
  /\ ((2 <= List.length gamePlayers)%nat ->
      exists s',
        App.splitTeams sort gamePlayers src s = App.posted s' []
        /\ Server.current_game s'
           = map (fun r =>
                    if has_id (id r) gamePlayers
                    then set_team
                           (assignment (App.pools sort gamePlayers src) (id r))
                           r
                    else r)
               (Server.current_game s)
        /\ Server.clients s'
           = map (after_sending [TEAMS_UPDATED]) (Server.clients s)).
Proof.
  intro Hnd. split.
  - intro Hlt. unfold App.splitTeams. apply Nat.ltb_lt in Hlt.
    now rewrite Hlt.
  - intro Hlen. unfold App.splitTeams.
    apply Nat.ltb_ge in Hlen. rewrite Hlen.
    pose proof (pools_permute sort sort_permutes gamePlayers src) as Hperm.
    destruct (App.pools sort gamePlayers src) as [[sG sD] sF].
    rewrite (teamsUpdate_items _ sG sD sF Hnd (pool_ids _ _ Hperm)).
    cbn. eexists. split; [reflexivity|]. cbn. split.
    + apply transaction_items.
    + apply map_ext. intro c. apply send_after_sending.
Qed.

(** X15: with the full line-up the capacity is made for, 2 goalies, 8 defenders
    and 12 forwards, a split leaves nobody without a team: each team has its
    quota of every position, 11 players a side. *)
Theorem split_full_line_up (s : Server.Store) (src : RandomSource) :
  NoDup (map id (Server.current_game s)) ->
  goalieCount (Server.current_game s) = 2%nat ->
  List.length (filter (App.is_position defense) (Server.current_game s))
  = 8%nat ->
  List.length (filter (App.is_position forward) (Server.current_game s))
  = 12%nat ->
  exists s',
    App.splitTeams sort (Server.current_game s) src s = App.posted s' []
    /\ (forall t pos,
          List.length (App.members t pos (Server.current_game s'))
          = quota pos)
    /\ List.length (redTeam (Server.current_game s')) = 11%nat
    /\ List.length (blueTeam (Server.current_game s')) = 11%nat
    /\ unassigned (Server.current_game s') = [].
Proof.
  intros Hnd HG HD HF. unfold goalieCount in HG.
  pose proof (position_partition (Server.current_game s)) as Hall.
  rewrite HG, HD, HF in Hall.
  destruct (splitTeams_posted sort sort_permutes s src Hnd)
    as [s' [Hs' [Hrows _]]]; [lia|].
  exists s'. split; [exact Hs'|].
  pose proof (pools_permute sort sort_permutes (Server.current_game s) src)
    as Hperm.
  assert (Hcount : forall t pos,
             List.length (App.members t pos (Server.current_game s'))
             = quota pos).
  { intros t pos. rewrite Hrows, (members_count _ _ Hnd Hperm).
    destruct (share_length pos
                (pool_of pos (App.pools sort (Server.current_game s) src)))
      as [HR HB].
    pose proof (Permutation_length (Hperm pos)) as Hsize.
    destruct t; [rewrite HR|rewrite HB]; rewrite <- Hsize;
      destruct pos; cbn [quota]; rewrite ?HG, ?HD, ?HF; reflexivity. }
  split; [exact Hcount|].
  assert (Hred : List.length (redTeam (Server.current_game s')) = 11%nat).
  { unfold redTeam. rewrite team_members, !Hcount. reflexivity. }
  assert (Hblue : List.length (blueTeam (Server.current_game s')) = 11%nat).
  { unfold blueTeam. rewrite team_members, !Hcount. reflexivity. }
  split; [exact Hred|]. split; [exact Hblue|].
  apply length_zero_iff_nil.
  pose proof (assigned_unassigned (Server.current_game s')) as Hsum.
  rewrite assigned_count, !Hcount in Hsum. cbn [quota] in Hsum.
  assert (Hsame : List.length (Server.current_game s')
                  = List.length (Server.current_game s))
    by (rewrite Hrows; apply length_map).
  lia.
Qed.

End MoreSplit.

(** * More instances *)

Lemma session5_well_formed : well_formed session5.
Proof.
  split; [exact session5_ids_unique|]. split.
  - repeat constructor; cbn; intuition discriminate.
  - intros p Hp. cbn in Hp.
    repeat (destruct Hp as [<-|Hp]; [cbn; lia|]). contradiction.
Qed.

Lemma full_house_ids_unique : NoDup (map id (Server.current_game full_house)).
Proof. vm_compute. repeat constructor; cbn; lia. Qed.

Lemma serve_well_formed_witness :
  well_formed
    (serve [POST_signup "Zed" goalie; POST_remove 2; POST_split teams_twice;
            POST_reset; POST_signup "Bob" forward] session5).
Proof.
  apply (serve_well_formed
           [POST_signup "Zed" goalie; POST_remove 2; POST_split teams_twice;
            POST_reset; POST_signup "Bob" forward] session5).
  exact session5_well_formed.
Defined.

Lemma signup_id_never_reused_witness :
  id (player 2 "Bob" goalie (Some blue)) < id (player 6 "Bob" forward None).
Proof.
  apply (signup_id_never_reused [POST_remove 2; POST_reset] session5
           (player 2 "Bob" goalie (Some blue)) (player 6 "Bob" forward None)
           "Bob" forward).
  - exact session5_well_formed.
  - right. now left.
  - reflexivity.
Defined.

Lemma signup_then_remove_witness :
  exists q,
    snd (Server.signup "Zed" goalie session5)
    = Server.json (Server.signup_body q)
    /\ Server.current_game
         (fst (Server.remove (id q) (fst (Server.signup "Zed" goalie session5))))
       = Server.current_game session5
    /\ Server.sqlite_sequence
         (fst (Server.remove (id q) (fst (Server.signup "Zed" goalie session5))))
       = id q.
Proof.
  apply (signup_then_remove "Zed" goalie session5).
  apply fresh_name. reflexivity.
Defined.

Lemma onmessage_ids_unique_witness :
  NoDup
    (map id
       (App.onmessage session5 (SIGNUP_UPDATE (player 6 "Zed" goalie None))
          (Server.current_game session5))).
Proof.
  apply (onmessage_ids_unique session5
           (SIGNUP_UPDATE (player 6 "Zed" goalie None))
           (Server.current_game session5));
    exact session5_ids_unique.
Defined.


Lemma splitTeams_any_store_witness :
  App.splitTeams (@insertion_sort) [player 1 "Alice" defense None] alternating
    session5
  = App.insufficient "Potrebujete aspoň 2 hráčov na rozlosovanie."
  /\ exists s',
       App.splitTeams (@insertion_sort)
         (filter (fun p => negb (id p =? 2)) (Server.current_game session5))
         alternating session5 = App.posted s' []
       /\ Server.current_game s'
          = [player 1 "Alice" defense (Some red);
             player 2 "Bob" goalie (Some blue);
             player 3 "Cyril" forward (Some red);
             player 4 "Dana" goalie (Some red);
             player 5 "Emil" defense (Some red)].
Proof.
  split.
  - apply (splitTeams_any_store (@insertion_sort) insertion_sort_permutes
             [player 1 "Alice" defense None] alternating session5).
    + repeat constructor; cbn; lia.
    + cbn. lia.
  - destruct (splitTeams_any_store (@insertion_sort) insertion_sort_permutes
                (filter (fun p => negb (id p =? 2))
                   (Server.current_game session5))
                alternating session5) as [_ H].
    + repeat constructor; cbn; lia.
    + destruct H as [s' [H1 [H2 _]]]; [cbn; lia|].
      exists s'. split; [exact H1|]. rewrite H2. reflexivity.
Defined.

Lemma split_full_line_up_witness :
  exists s',
    App.splitTeams (@insertion_sort) (Server.current_game full_house)
      alternating full_house = App.posted s' []
    /\ (forall t pos,
          List.length (App.members t pos (Server.current_game s'))
          = quota pos)
    /\ List.length (redTeam (Server.current_game s')) = 11%nat
    /\ List.length (blueTeam (Server.current_game s')) = 11%nat
    /\ unassigned (Server.current_game s') = [].
Proof.
  apply (split_full_line_up (@insertion_sort) insertion_sort_permutes
           full_house alternating).
  - exact full_house_ids_unique.
  - reflexivity.
  - reflexivity.
  - reflexivity.
Defined.

Lemma signUp_button_agrees_witness :
  (App.signUp (Server.current_game session5) "Zed" goalie session5
   = (fst (Server.signup "Zed" goalie session5), [])
   /\ Server.current_game (fst (Server.signup "Zed" goalie session5))
      = Server.current_game session5 ++ [player 6 "Zed" goalie None])
  /\ App.signUp (Server.current_game session5) "Bob" goalie session5
     = (session5, ["Hráč je už nahlásený"]).
Proof.
  split.
  - apply (signUp_button_agrees "Zed" goalie session5);
      [cbn; lia|reflexivity].
  - apply (signUp_button_agrees "Bob" goalie session5);
      [cbn; lia|reflexivity].
Defined.
